(** * The permutation-ordering search engine of [search_algorithms/part_a.py]

    A shallow embedding of the class [Search]: the state model, the successor
    generator, the heuristic and cost functions, the five frontier strategies
    (breadth-first, depth-first, uniform-cost, greedy, A-star) and the
    hill-climbing local search, followed by the properties of the engine.

    Conventions of the embedding.
    - A number is an integer of [Z].  The engine only compares, subtracts and
      takes absolute values of the numbers of a state.
    - A Python list of numbers and the tuple made of it by [tuple(state)] are
      both a [list Z]; [tuple] is the conversion between the two views.
    - The [while] loops are structurally recursive on a fuel argument; running
      out of fuel is [None] and is distinct from every result of the source.
    - [queue.Queue], the list used as a stack and [heapq] are modelled by a
      list of entries with the pop and push operations of each discipline;
      [heappop] takes out a least entry for the order [<] of Python on the
      tuples pushed.  The properties of the five strategies are proved for
      every discipline whose pop takes one entry out and whose push puts one
      in, except the shortest-path property, which is about the queue. *)

From Stdlib Require Import List ZArith Lia Bool Arith Permutation Sorted Relations.
Import ListNotations.

Local Open Scope nat_scope.

(** ** State model *)

Definition state := list Z.
Definition ident := list Z.
Definition path := list ident.

(** [tuple(state)]: the identity of a state, by value. *)
Definition tuple (s : state) : ident := s.

Definition state_eq_dec : forall a b : state, {a = b} + {a <> b} :=
  list_eq_dec Z.eq_dec.

(** [x in visited_states]: membership by value. *)
Definition visited_dec (x : ident) (visited : list ident) :
  {In x visited} + {~ In x visited} := in_dec state_eq_dec x visited.

(** [sorted(l)] on numbers: the ascending rearrangement of [l]. *)
Fixpoint insert_sorted (x : Z) (l : list Z) : list Z :=
  match l with
  | [] => [x]
  | y :: r => if (x <=? y)%Z then x :: y :: r else y :: insert_sorted x r
  end.

Fixpoint sorted (l : list Z) : list Z :=
  match l with
  | [] => []
  | x :: r => insert_sorted x (sorted r)
  end.

(** The fields set by [Search.__init__]. *)
Record Search := mkSearch {
  initial_state : state;
  goal_state : state;
  state_length : nat
}.

(** [Search(initial_state)]. *)
Definition new_search (init : state) : Search :=
  {| initial_state := init;
     goal_state := sorted init;
     state_length := length init |}.

(** ** Successor generator *)

(** [s[a:b]] for non-negative [a] and [b]; out-of-range bounds are clamped. *)
Definition slice (a b : nat) (s : state) : state := firstn (b - a) (skipn a s).

(** [state[:i] + state[i+1:i+2] + state[i:i+1] + state[i+2:]]. *)
Definition swap_adjacent (i : nat) (s : state) : state :=
  firstn i s ++ slice (i + 1) (i + 2) s ++ slice i (i + 1) s ++ skipn (i + 2) s.

(** [range(self.state_length - 1)] is empty when the length is 0, which the
    truncated subtraction of [nat] gives as well. *)
Definition successors (self : Search) (s : state) : list state :=
  map (fun i => swap_adjacent i s) (seq 0 (state_length self - 1)).

(** ** Heuristic and cost functions *)

(** [s[i]] inside [range(len)]; the engine only indexes states of the stored
    length (see [successors_length]), so the default is never used there. *)
Definition item (s : state) (i : nat) : Z := nth i s 0%Z.

Definition count_if (f : nat -> bool) (l : list nat) : nat := length (filter f l).

(** [sum(1 for i in range(len(state)) for j in range(i + 1, len(state))
         if state[i] > state[j])]. *)
Definition inversion_heuristic (s : state) : nat :=
  length
    (filter (fun ij => (item s (fst ij) >? item s (snd ij))%Z)
       (flat_map (fun i => map (pair i) (seq (i + 1) (length s - (i + 1))))
          (seq 0 (length s)))).

(** [sum(1 for i in range(self.state_length) if state[i] != self.goal_state[i])];
    no strategy uses it. *)
Definition misplaced_tiles_heuristic (self : Search) (s : state) : Z :=
  Z.of_nat
    (count_if (fun i => negb (item s i =? item (goal_state self) i)%Z)
       (seq 0 (state_length self))).

(** [sum(abs(state[i] - self.goal_state[i]) for i in range(self.state_length))]. *)
Definition absolute_difference_heuristic (self : Search) (s : state) : Z :=
  fold_left Z.add
    (map (fun i => Z.abs (item s i - item (goal_state self) i))
       (seq 0 (state_length self))) 0%Z.

(** [sum(1 for i in range(self.state_length) if self.initial_state[i] != state[i])]. *)
Definition misplaced_elements_cost (self : Search) (s : state) : Z :=
  Z.of_nat
    (count_if (fun i => negb (item (initial_state self) i =? item s i)%Z)
       (seq 0 (state_length self))).

(** ** Frontier disciplines *)

(** [queue.Queue]: [put] appends, [get] takes the oldest entry. *)
Definition queue_put {E : Type} (q : list E) (e : E) : list E := q ++ [e].
Definition queue_get {E : Type} (q : list E) : option (E * list E) :=
  match q with
  | [] => None
  | e :: r => Some (e, r)
  end.

(** A list used as a stack: [append] pushes on top (kept at the head of the
    model list), [pop] takes the newest entry. *)
Definition stack_append {E : Type} (st : list E) (e : E) : list E := e :: st.
Definition stack_pop {E : Type} (st : list E) : option (E * list E) :=
  match st with
  | [] => None
  | e :: r => Some (e, r)
  end.

(** The order [<] of Python on lists and tuples: the first position where the
    two differ decides, and a proper prefix is smaller. *)
Fixpoint seq_ltb {A : Type} (eqb ltb : A -> A -> bool) (a b : list A) : bool :=
  match a, b with
  | _, [] => false
  | [], _ :: _ => true
  | x :: a', y :: b' => if eqb x y then seq_ltb eqb ltb a' b' else ltb x y
  end.

Definition state_eqb (a b : state) : bool :=
  if state_eq_dec a b then true else false.
Definition state_ltb : state -> state -> bool := seq_ltb Z.eqb Z.ltb.
Definition path_ltb : path -> path -> bool := seq_ltb state_eqb state_ltb.

(** [(k, state, path) < (k', state', path')]. *)
Definition entry3_ltb (a b : Z * state * path) : bool :=
  let '(k, s, p) := a in
  let '(k', s', p') := b in
  if negb (k =? k')%Z then (k <? k')%Z
  else if negb (state_eqb s s') then state_ltb s s'
  else path_ltb p p'.

(** [(f, cost, state, path) < (f', cost', state', path')]. *)
Definition entry4_ltb (a b : Z * Z * state * path) : bool :=
  let '(f, c, s, p) := a in
  let '(f', c', s', p') := b in
  if negb (f =? f')%Z then (f <? f')%Z
  else entry3_ltb (c, s, p) (c', s', p').

(** [heapq]: the heap is the collection of its entries; [heappop] removes and
    returns a least entry for [<], [heappush] adds one. *)
Section Heap.
Context {E : Type}.
Variable ltb : E -> E -> bool.

Fixpoint extract_min (e : E) (h : list E) : E * list E :=
  match h with
  | [] => (e, [])
  | x :: r =>
      let (m, r') := extract_min x r in
      if ltb m e then (m, e :: r') else (e, m :: r')
  end.

Definition heappop (h : list E) : option (E * list E) :=
  match h with
  | [] => None
  | e :: r => Some (extract_min e r)
  end.

Definition heappush (h : list E) (e : E) : list E := e :: h.
End Heap.

(** ** The five frontier strategies *)

(** [return visited_states, path] or [return None]. *)
Inductive search_result :=
| Found (visited_states : list ident) (p : path)
| NotFound.

(** The loop shared by the five strategies, over the entry type [E] of the
    frontier, its projections and its pop and push operations. *)
Section Loop.
Variable self : Search.
Context {E : Type}.
Variable entry_state : E -> state.
Variable entry_path : E -> path.
Variable make_entry : state -> path -> E.
Variable pop : list E -> option (E * list E).
Variable push : list E -> E -> list E.

(** [for successor in self.successors(state.copy()): ... put/append/heappush]. *)
Definition expand (frontier : list E) (s : state) (p : path) : list E :=
  fold_left
    (fun fr successor => push fr (make_entry successor (p ++ [tuple successor])))
    (successors self s) frontier.

Fixpoint search_loop (fuel : nat) (frontier : list E) (visited_states : list ident)
  : option search_result :=
  match fuel with
  | 0 => None
  | S fuel' =>
      match pop frontier with
      | None => Some NotFound
      | Some (e, frontier') =>
          let s := entry_state e in
          let p := entry_path e in
          if visited_dec (tuple s) visited_states
          then search_loop fuel' frontier' visited_states
          else
            let visited_states' := visited_states ++ [tuple s] in
            if state_eq_dec s (goal_state self)
            then Some (Found visited_states' p)
            else search_loop fuel' (expand frontier' s p) visited_states'
      end
  end.
End Loop.

Definition entry2 : Type := state * path.
Definition entry3 : Type := Z * state * path.
Definition entry4 : Type := Z * Z * state * path.

Definition breadth_first_search (self : Search) (fuel : nat) : option search_result :=
  search_loop self (fst : entry2 -> state) snd pair queue_get queue_put fuel
    [(initial_state self, [tuple (initial_state self)])] [].

Definition depth_first_search (self : Search) (fuel : nat) : option search_result :=
  search_loop self (fst : entry2 -> state) snd pair stack_pop stack_append fuel
    [(initial_state self, [tuple (initial_state self)])] [].

Definition uniform_cost_search (self : Search) (fuel : nat) : option search_result :=
  search_loop self (fun e : entry3 => snd (fst e)) snd
    (fun s p => (misplaced_elements_cost self s, s, p))
    (heappop entry3_ltb) heappush fuel
    [(0%Z, initial_state self, [tuple (initial_state self)])] [].

Definition greedy_search (self : Search) (fuel : nat) : option search_result :=
  search_loop self (fun e : entry3 => snd (fst e)) snd
    (fun s p => (absolute_difference_heuristic self s, s, p))
    (heappop entry3_ltb) heappush fuel
    [(absolute_difference_heuristic self (initial_state self),
      initial_state self, [tuple (initial_state self)])] [].

Definition a_star_search (self : Search) (fuel : nat) : option search_result :=
  search_loop self (fun e : entry4 => snd (fst e)) snd
    (fun s p =>
       let new_cost := misplaced_elements_cost self s in
       ((absolute_difference_heuristic self s + new_cost)%Z, new_cost, s, p))
    (heappop entry4_ltb) heappush fuel
    [(absolute_difference_heuristic self (initial_state self), 0%Z,
      initial_state self, [tuple (initial_state self)])] [].

(** The strategies by name, as [main] selects them. *)
Inductive strategy :=
| BreadthFirst | DepthFirst | UniformCost | Greedy | AStar.

Definition run (st : strategy) : Search -> nat -> option search_result :=
  match st with
  | BreadthFirst => breadth_first_search
  | DepthFirst => depth_first_search
  | UniformCost => uniform_cost_search
  | Greedy => greedy_search
  | AStar => a_star_search
  end.

(** ** Hill climbing *)

(** [min(neighbors, key=...)]: the first neighbor of least key; [None] stands
    for the [ValueError] raised on an empty list. *)
Fixpoint min_from (key : state -> nat) (best : state) (l : list state) : state :=
  match l with
  | [] => best
  | x :: r => min_from key (if key x <? key best then x else best) r
  end.

Definition py_min (key : state -> nat) (l : list state) : option state :=
  match l with
  | [] => None
  | x :: r => Some (min_from key x r)
  end.

Inductive hc_result :=
| Returned (current_state : state) (nodes_explored : nat)
| Raised.

Inductive hc_step :=
| Stop (r : hc_result)
| Move (current_state : state) (nodes_explored : nat).

(** One pass through the body of [while True]. *)
Definition hill_climbing_iteration (self : Search) (current_state : state)
  (nodes_explored : nat) : hc_step :=
  let h := inversion_heuristic current_state in
  if h =? 0 then Stop (Returned current_state nodes_explored)
  else
    let neighbors := successors self current_state in
    let nodes_explored' := nodes_explored + length neighbors in
    match py_min inversion_heuristic neighbors with
    | None => Stop Raised
    | Some best_neighbor =>
        if h <=? inversion_heuristic best_neighbor
        then Stop (Returned current_state nodes_explored')
        else Move best_neighbor nodes_explored'
    end.

Fixpoint hill_climbing_loop (self : Search) (fuel : nat) (current_state : state)
  (nodes_explored : nat) : option hc_result :=
  match fuel with
  | 0 => None
  | S fuel' =>
      match hill_climbing_iteration self current_state nodes_explored with
      | Stop r => Some r
      | Move s n => hill_climbing_loop self fuel' s n
      end
  end.

Definition hill_climbing_search (self : Search) (fuel : nat) : option hc_result :=
  hill_climbing_loop self fuel (initial_state self) 0.

(** ** Reporting helper *)

(** [visited_states.index(state)]; [None] stands for the [ValueError] raised
    when the state is not in the log. *)
Fixpoint index (x : ident) (l : list ident) : option nat :=
  match l with
  | [] => None
  | y :: r => if state_eq_dec y x then Some 0 else option_map S (index x r)
  end.

(** The lines written by [print_final_path], as pairs of the index found in
    the log and the state; [None] when a lookup raises. *)
Fixpoint print_final_path (visited_states : list ident) (p : path)
  : option (list (nat * ident)) :=
  match p with
  | [] => Some []
  | s :: r =>
      match index s visited_states with
      | None => None
      | Some visited_index =>
          option_map (cons (visited_index, s)) (print_final_path visited_states r)
      end
  end.

(** ** Experiment driver ([part_b.py]) *)

(** The names that [run_experiment] passes to [getattr]: the five frontier
    strategies and hill climbing. *)
Inductive algorithm :=
| FrontierSearch (st : strategy)
| HillClimbingSearch.

(** The body of one iteration of [run_experiment] after the sequence
    [random_numbers] has been drawn: the value added to
    [total_nodes_explored].  The outer [None] is the end of the fuel given to
    the search; [Some None] stands for an exception, raised when the pair is
    unpacked from the [None] of an exhausted frontier or by [min] inside hill
    climbing. *)
Definition iteration_nodes_explored (alg : algorithm) (random_numbers : state)
  (fuel : nat) : option (option nat) :=
  let search := new_search random_numbers in
  match alg with
  | HillClimbingSearch =>
      match hill_climbing_search search fuel with
      | None => None
      | Some Raised => Some None
      | Some (Returned nodes_explored _) => Some (Some (length nodes_explored))
      end
  | FrontierSearch st =>
      match run st search fuel with
      | None => None
      | Some NotFound => Some None
      | Some (Found visited_states _) => Some (Some (length visited_states))
      end
  end.

(** The loop of [run_experiment] over the sequences drawn, one per
    iteration; the function returns this total divided by the number of
    iterations. *)
Fixpoint total_nodes_explored (alg : algorithm) (draws : list state) (fuel : nat)
  (total : nat) : option (option nat) :=
  match draws with
  | [] => Some (Some total)
  | random_numbers :: rest =>
      match iteration_nodes_explored alg random_numbers fuel with
      | Some (Some nodes_explored) =>
          total_nodes_explored alg rest fuel (total + nodes_explored)
      | Some None => Some None
      | None => None
      end
  end.

(** * Vocabulary of the properties *)

(** The position read in the input by position [k] of the [i]-th successor. *)
Definition transpose (i k : nat) : nat :=
  if k =? i then i + 1 else if k =? i + 1 then i else k.

(** One adjacent swap inside the state. *)
Definition adjacent (a b : state) : Prop :=
  exists i, i + 1 < length a /\ b = swap_adjacent i a.

(** ** Paths of the search graph *)

Section PathShapes.
Variable self : Search.

(** A path in the making: it starts at the initial state and every further
    entry is a successor of the entry before it. *)
Inductive valid_path : path -> state -> Prop :=
| vp_init : valid_path [tuple (initial_state self)] (initial_state self)
| vp_step p u t :
    valid_path p u -> In t (successors self u) ->
    valid_path (p ++ [tuple t]) t.

(** The paths carried by the frontier: moreover every state but the last
    one has been expanded, hence logged as visited, when its child was
    pushed. *)
Inductive traced (V : list ident) : path -> state -> Prop :=
| tr_init : traced V [tuple (initial_state self)] (initial_state self)
| tr_step p u t :
    traced V p u -> NoDup p -> In (tuple u) V -> In t (successors self u) ->
    traced V (p ++ [tuple t]) t.
End PathShapes.

(** ** A finite universe for the visited log *)

(** All sequences of length [n] over the values of [A]. *)
Fixpoint words (A : list Z) (n : nat) : list (list Z) :=
  match n with
  | 0 => [[]]
  | S n' => flat_map (fun a => map (cons a) (words A n')) A
  end.

Definition universe (init : state) : list ident := words init (length init).

(** ** Invariants of the search loop, for any frontier discipline *)

Section LoopInvariants.
Variable self : Search.
Context {E : Type}.
Variable entry_state : E -> state.
Variable entry_path : E -> path.
Variable make_entry : state -> path -> E.

(** The entry pushed for the successor [t] of a state popped with path [p]. *)
Definition child_entry (p : path) (t : state) : E := make_entry t (p ++ [tuple t]).

(** Well-formedness of the visited log and of the carried paths. *)
Record frontier_inv (F : list E) (V : list ident) : Prop := {
  inv_nodup : NoDup V;
  inv_perm : forall v, In v V -> Permutation v (initial_state self);
  inv_traced : forall e, In e F -> traced self V (entry_path e) (entry_state e)
}.

(** The frontier never empties before the goal is logged. *)
Record frontier_closed (F : list E) (V : list ident) : Prop := {
  cl_init : In (tuple (initial_state self)) V
            \/ In (initial_state self) (map entry_state F);
  cl_succ : forall u t, In (tuple u) V -> In t (successors self u) ->
                        In (tuple t) V \/ In t (map entry_state F);
  cl_goal : ~ In (tuple (goal_state self)) V
}.
End LoopInvariants.

(** ** The five strategies as instances of the loop *)

(** The entry type of a frontier with its projections, constructor, pop and
    push operations, and the first entry put in. *)
Record frontier_ops := mkOps {
  f_entry : Type;
  f_state : f_entry -> state;
  f_path : f_entry -> path;
  f_make : state -> path -> f_entry;
  f_pop : list f_entry -> option (f_entry * list f_entry);
  f_push : list f_entry -> f_entry -> list f_entry;
  f_first : f_entry
}.

Definition run_ops (self : Search) (o : frontier_ops) (fuel : nat) : option search_result :=
  search_loop self (f_state o) (f_path o) (f_make o) (f_pop o) (f_push o) fuel
    [f_first o] [].

Definition ops_of (st : strategy) (self : Search) : frontier_ops :=
  match st with
  | BreadthFirst =>
      mkOps entry2 fst snd pair queue_get queue_put
        (initial_state self, [tuple (initial_state self)])
  | DepthFirst =>
      mkOps entry2 fst snd pair stack_pop stack_append
        (initial_state self, [tuple (initial_state self)])
  | UniformCost =>
      mkOps entry3 (fun e => snd (fst e)) snd
        (fun s p => (misplaced_elements_cost self s, s, p))
        (heappop entry3_ltb) heappush
        (0%Z, initial_state self, [tuple (initial_state self)])
  | Greedy =>
      mkOps entry3 (fun e => snd (fst e)) snd
        (fun s p => (absolute_difference_heuristic self s, s, p))
        (heappop entry3_ltb) heappush
        (absolute_difference_heuristic self (initial_state self),
         initial_state self, [tuple (initial_state self)])
  | AStar =>
      mkOps entry4 (fun e => snd (fst e)) snd
        (fun s p =>
           let new_cost := misplaced_elements_cost self s in
           ((absolute_difference_heuristic self s + new_cost)%Z, new_cost, s, p))
        (heappop entry4_ltb) heappush
        (absolute_difference_heuristic self (initial_state self), 0%Z,
         initial_state self, [tuple (initial_state self)])
  end.

(** What the proofs need of a frontier: popping takes one entry out of a
    non-empty frontier, pushing puts one entry in. *)
Record lawful (self : Search) (o : frontier_ops) : Prop := {
  law_pop_empty : forall F, f_pop o F = None -> F = [];
  law_pop_perm : forall F e F', f_pop o F = Some (e, F') -> Permutation F (e :: F');
  law_push_perm : forall F e, Permutation (f_push o F e) (e :: F);
  law_make_state : forall s p, f_state o (f_make o s p) = s;
  law_make_path : forall s p, f_path o (f_make o s p) = p;
  law_first_state : f_state o (f_first o) = initial_state self;
  law_first_path : f_path o (f_first o) = [tuple (initial_state self)]
}.

(** ** The order of the heap entries *)

(** A strict total order given by its boolean test. *)
Record strict_total {A : Type} (ltb : A -> A -> bool) : Prop := {
  so_irrefl : forall a, ltb a a = false;
  so_trans : forall a b c, ltb a b = true -> ltb b c = true -> ltb a c = true;
  so_total : forall a b, ltb a b = true \/ a = b \/ ltb b a = true
}.

(** The comparison of two pairs by their first components, then by their
    second ones. *)
Definition lex_ltb {A B : Type} (eqbA ltbA : A -> A -> bool) (ltbB : B -> B -> bool)
  (a b : A * B) : bool :=
  if negb (eqbA (fst a) (fst b)) then ltbA (fst a) (fst b) else ltbB (snd a) (snd b).

(** ** Layers of the breadth-first queue *)

Section Layers.
Variable self : Search.

(** The queue holds the rest of the layer of paths of [d] entries, then the
    part of the next layer pushed so far; every state with a shorter path is
    logged already. *)
Record layered (d : nat) (Q1 Q2 : list entry2) (V : list ident) : Prop := {
  lay_pos : 1 <= d;
  lay_cur : forall e, In e Q1 -> length (snd e) = d;
  lay_next : forall e, In e Q2 -> length (snd e) = S d;
  lay_below : forall q t, valid_path self q t -> length q < d -> In (tuple t) V;
  lay_at : forall q t, valid_path self q t -> length q = d ->
                       In (tuple t) V \/ In t (map fst Q1);
  lay_succ : forall u t, In (tuple u) V -> In t (successors self u) ->
                         In (tuple t) V \/ In t (map fst (Q1 ++ Q2))
}.
End Layers.

(** ** The inversion count and one pass of hill climbing *)

(** The pairs [(i, j)] with [i < j < n], in the order of the two loops. *)
Definition index_pairs (n : nat) : list (nat * nat) :=
  flat_map (fun i => map (pair i) (seq (i + 1) (n - (i + 1)))) (seq 0 n).

Definition shift_pair (ij : nat * nat) : nat * nat := (S (fst ij), S (snd ij)).

(** The number of values of [r] below [x], and the inversion made by the
    pair [x], [y] in this order. *)
Definition count_below (x : Z) (r : list Z) : nat :=
  length (filter (fun y => (x >? y)%Z) r).

Definition gt_bit (x y : Z) : nat := if (x >? y)%Z then 1 else 0.

(** What one pass of the loop does, on a state of the stored length. *)
Definition iteration_spec (self : Search) (cur : state) (n : nat) (r : hc_step) : Prop :=
  match r with
  | Move best n' =>
      In best (successors self cur)
      /\ inversion_heuristic best < inversion_heuristic cur
      /\ (forall t, In t (successors self cur) ->
                    inversion_heuristic best <= inversion_heuristic t)
      /\ n' = n + (state_length self - 1)
  | Stop (Returned s n') =>
      s = cur
      /\ ((inversion_heuristic cur = 0 /\ n' = n)
          \/ (inversion_heuristic cur <> 0
              /\ (forall t, In t (successors self cur) ->
                            inversion_heuristic cur <= inversion_heuristic t)
              /\ n' = n + (state_length self - 1)))
  | Stop Raised => False
  end.

(** [b] is the first element of [l] of least key: what [min(l, key=...)]
    returns. *)
Definition first_least (key : state -> nat) (b : state) (l : list state) : Prop :=
  exists i,
    nth_error l i = Some b
    /\ (forall t, In t l -> key b <= key t)
    /\ (forall j t, j < i -> nth_error l j = Some t -> key b < key t).

(** The run of steepest descent from a state and a count of states examined
    to the pair returned: it returns the state it is at when the inversion
    count is zero, with the count unchanged, or when no neighbour has a
    smaller inversion count, after the neighbours have been counted;
    otherwise it counts the neighbours, goes to the first neighbour of least
    inversion count, which is smaller than the current one, and runs on from
    there. *)
Inductive steepest_descent (self : Search) : state -> nat -> state -> nat -> Prop :=
| sd_zero cur n :
    inversion_heuristic cur = 0 ->
    steepest_descent self cur n cur n
| sd_no_better cur n :
    inversion_heuristic cur <> 0 ->
    (forall t, In t (successors self cur) ->
               inversion_heuristic cur <= inversion_heuristic t) ->
    steepest_descent self cur n cur (n + length (successors self cur))
| sd_move cur n best s m :
    inversion_heuristic cur <> 0 ->
    first_least inversion_heuristic best (successors self cur) ->
    inversion_heuristic best < inversion_heuristic cur ->
    steepest_descent self best (n + length (successors self cur)) s m ->
    steepest_descent self cur n s m.

(** * Proofs *)

(** ** Running the engine on a small input *)

Example bfs_312 :
  breadth_first_search (new_search [3; 1; 2]%Z) 20
  = Some (Found [[3; 1; 2]; [1; 3; 2]; [3; 2; 1]; [1; 2; 3]]%Z
                [[3; 1; 2]; [1; 3; 2]; [1; 2; 3]]%Z).
Proof. vm_compute. reflexivity. Qed.

Example dfs_211 :
  depth_first_search (new_search [2; 1; 1]%Z) 20
  = Some (Found [[2; 1; 1]; [1; 2; 1]; [1; 1; 2]]%Z
                [[2; 1; 1]; [1; 2; 1]; [1; 1; 2]]%Z).
Proof. vm_compute. reflexivity. Qed.

Example a_star_312 :
  a_star_search (new_search [3; 1; 2]%Z) 20
  = Some (Found [[3; 1; 2]; [1; 3; 2]; [1; 2; 3]]%Z
                [[3; 1; 2]; [1; 3; 2]; [1; 2; 3]]%Z).
Proof. vm_compute. reflexivity. Qed.

Example hill_climbing_312 :
  hill_climbing_search (new_search [3; 1; 2]%Z) 3
  = Some (Returned [1; 2; 3]%Z 4).
Proof. vm_compute. reflexivity. Qed.

(** ** Properties of the state model and of the successor generator *)

Lemma insert_sorted_perm (x : Z) (l : list Z) :
  Permutation (insert_sorted x l) (x :: l).
Proof.
  induction l as [|y r IH]; simpl.
  - apply Permutation_refl.
  - destruct (x <=? y)%Z.
    + apply Permutation_refl.
    + eapply perm_trans; [apply perm_skip, IH | apply perm_swap].
Qed.

Lemma sorted_perm (l : list Z) : Permutation (sorted l) l.
Proof.
  induction l as [|x r IH]; simpl.
  - constructor.
  - eapply perm_trans; [apply insert_sorted_perm | apply perm_skip, IH].
Qed.

Lemma insert_sorted_Sorted (x : Z) (l : list Z) :
  Sorted Z.le l -> Sorted Z.le (insert_sorted x l).
Proof.
  induction l as [|y r IH]; simpl; intros Hs.
  - repeat constructor.
  - destruct (Z.leb_spec x y) as [Hxy|Hxy].
    + constructor; [assumption | constructor; assumption].
    + inversion Hs as [|? ? Hr Hhd]; subst.
      constructor; [apply IH; assumption |].
      destruct r as [|z r']; simpl.
      * constructor; lia.
      * destruct (Z.leb_spec x z); constructor; try lia.
        inversion Hhd; assumption.
Qed.

Lemma sorted_Sorted (l : list Z) : Sorted Z.le (sorted l).
Proof.
  induction l as [|x r IH]; simpl.
  - constructor.
  - apply insert_sorted_Sorted, IH.
Qed.

Lemma insert_sorted_head (x : Z) (l : list Z) :
  Sorted Z.le (x :: l) -> insert_sorted x l = x :: l.
Proof.
  destruct l as [|y r]; simpl; intros Hs; [reflexivity |].
  inversion Hs as [|? ? _ Hhd]; subst. inversion Hhd; subst.
  destruct (Z.leb_spec x y); [reflexivity | lia].
Qed.

(** Sorting a sorted sequence leaves it unchanged. *)
Lemma sorted_fixpoint (l : list Z) : Sorted Z.le l -> sorted l = l.
Proof.
  induction l as [|x r IH]; simpl; intros Hs; [reflexivity |].
  rewrite IH by (inversion Hs; assumption).
  apply insert_sorted_head, Hs.
Qed.

(** The swap written with slices is the exchange of two neighbours. *)
Lemma swap_adjacent_cons (z : Z) (i : nat) (s : state) :
  swap_adjacent (S i) (z :: s) = z :: swap_adjacent i s.
Proof. reflexivity. Qed.

Lemma swap_adjacent_app (a : list Z) (x y : Z) (b : list Z) :
  swap_adjacent (length a) (a ++ x :: y :: b) = a ++ y :: x :: b.
Proof.
  induction a as [|z a IH].
  - reflexivity.
  - simpl length. simpl app. rewrite swap_adjacent_cons, IH. reflexivity.
Qed.

(** A position [i] with a right neighbour splits the state around the pair. *)
Lemma split_at_pair (s : state) (i : nat) :
  i + 1 < length s ->
  exists a x y b, s = a ++ x :: y :: b /\ length a = i.
Proof.
  revert s; induction i as [|i IH]; intros s Hi.
  - destruct s as [|x [|y b]]; simpl in Hi; try lia.
    exists [], x, y, b; split; reflexivity.
  - destruct s as [|z s']; simpl in Hi; [lia |].
    destruct (IH s') as (a & x & y & b & -> & Hlen); [lia |].
    exists (z :: a), x, y, b; split; [reflexivity | simpl; lia].
Qed.

(** Whatever the index, the slices of a swap cover the state once. *)
Lemma swap_adjacent_perm (i : nat) (s : state) : Permutation (swap_adjacent i s) s.
Proof.
  unfold swap_adjacent, slice.
  replace (i + 2 - (i + 1)) with 1 by lia.
  replace (i + 1 - i) with 1 by lia.
  assert (Hs : s = firstn i s ++ firstn 1 (skipn i s)
                   ++ firstn 1 (skipn (i + 1) s) ++ skipn (i + 2) s).
  { rewrite <- (firstn_skipn i s) at 1. f_equal.
    rewrite <- (firstn_skipn 1 (skipn i s)) at 1. f_equal.
    rewrite skipn_skipn. replace (1 + i) with (i + 1) by lia.
    rewrite <- (firstn_skipn 1 (skipn (i + 1) s)) at 1. f_equal.
    rewrite skipn_skipn. f_equal. lia. }
  set (A := firstn i s) in *. set (B := firstn 1 (skipn i s)) in *.
  set (C := firstn 1 (skipn (i + 1) s)) in *. set (D := skipn (i + 2) s) in *.
  apply Permutation_trans with (A ++ B ++ C ++ D).
  - apply Permutation_app_head. rewrite !app_assoc.
    apply Permutation_app_tail, Permutation_app_comm.
  - rewrite <- Hs. apply Permutation_refl.
Qed.

Lemma successors_perm (self : Search) (s t : state) :
  In t (successors self s) -> Permutation t s.
Proof.
  unfold successors; rewrite in_map_iff.
  intros (i & <- & _). apply swap_adjacent_perm.
Qed.

Lemma successors_length (self : Search) (s t : state) :
  In t (successors self s) -> length t = length s.
Proof. intros H. apply Permutation_length, (successors_perm self), H. Qed.

Lemma successors_count (self : Search) (s : state) :
  length (successors self s) = state_length self - 1.
Proof. unfold successors. rewrite length_map, length_seq. reflexivity. Qed.

Lemma successors_nth_error (self : Search) (s : state) (i : nat) :
  i < state_length self - 1 ->
  nth_error (successors self s) i = Some (swap_adjacent i s).
Proof.
  intros Hi. unfold successors.
  rewrite nth_error_map, nth_error_seq.
  destruct (Nat.ltb_spec i (state_length self - 1)); [reflexivity | lia].
Qed.

Lemma swap_adjacent_nth_error (s : state) (i k : nat) :
  i + 1 < length s ->
  nth_error (swap_adjacent i s) k = nth_error s (transpose i k).
Proof.
  intros Hi. destruct (split_at_pair s i Hi) as (a & x & y & b & -> & <-).
  rewrite swap_adjacent_app. unfold transpose.
  destruct (Nat.eqb_spec k (length a)) as [->|Hk1].
  - rewrite !nth_error_app2 by lia.
    rewrite Nat.sub_diag. replace (length a + 1 - length a) with 1 by lia.
    reflexivity.
  - destruct (Nat.eqb_spec k (length a + 1)) as [->|Hk2].
    + rewrite !nth_error_app2 by lia.
      rewrite Nat.sub_diag. replace (length a + 1 - length a) with 1 by lia.
      reflexivity.
    + destruct (Nat.lt_ge_cases k (length a)) as [Hlt|Hge].
      * rewrite !nth_error_app1 by lia. reflexivity.
      * rewrite !nth_error_app2 by lia.
        destruct (k - length a) as [|[|n]] eqn:Hd; try lia. reflexivity.
Qed.

(** ** Paths of the search graph *)

Section Paths.
Variable self : Search.

Lemma traced_mono (V V' : list ident) (p : path) (s : state) :
  incl V V' -> traced self V p s -> traced self V' p s.
Proof.
  intros HV Ht; induction Ht.
  - constructor.
  - apply tr_step with u; auto.
Qed.

Lemma traced_valid (V : list ident) (p : path) (s : state) :
  traced self V p s -> valid_path self p s.
Proof. intros Ht; induction Ht; econstructor; eauto. Qed.

Lemma traced_incl (V : list ident) (p : path) (s : state) :
  traced self V p s -> In (tuple s) V -> incl p V.
Proof.
  intros Ht; induction Ht; intros Hs x Hx.
  - destruct Hx as [<-|[]]; assumption.
  - apply in_app_or in Hx as [Hx|[<-|[]]]; [apply IHHt |]; assumption.
Qed.

Lemma traced_nodup (V : list ident) (p : path) (s : state) :
  traced self V p s -> ~ In (tuple s) V -> NoDup p.
Proof.
  intros Ht Hs; destruct Ht as [|p u t Ht Hp Hu Ht'].
  - constructor; [intros [] | constructor].
  - apply NoDup_app; repeat split.
    + assumption.
    + constructor; [intros [] | constructor].
    + intros x Hx [<-|[]]. apply Hs.
      apply (traced_incl V p u); assumption.
Qed.

Lemma valid_path_last (p : path) (s : state) :
  valid_path self p s -> last p [] = tuple s.
Proof. intros Hv; destruct Hv; [reflexivity | apply last_last]. Qed.

Lemma valid_path_head (p : path) (s : state) :
  valid_path self p s -> hd_error p = Some (tuple (initial_state self)).
Proof.
  intros Hv; induction Hv; [reflexivity |].
  destruct p; [discriminate | assumption].
Qed.

Lemma valid_path_perm (p : path) (s : state) :
  valid_path self p s -> Permutation s (initial_state self).
Proof.
  intros Hv; induction Hv.
  - apply Permutation_refl.
  - eapply perm_trans; [eapply successors_perm; eassumption | assumption].
Qed.

Lemma valid_path_length (p : path) (s : state) :
  valid_path self p s -> nth_error p (length p - 1) = Some (tuple s).
Proof.
  intros Hv; destruct Hv; [reflexivity |].
  rewrite length_app, nth_error_app2 by (simpl; lia).
  simpl. replace (length p + 1 - 1 - length p) with 0 by lia. reflexivity.
Qed.

(** Consecutive entries of a path are related by the successor generator. *)
Lemma valid_path_consecutive (p : path) (s : state) (k : nat) (a b : ident) :
  valid_path self p s ->
  nth_error p k = Some a -> nth_error p (S k) = Some b ->
  In b (successors self a).
Proof.
  intros Hv; revert k a b; induction Hv as [|p u t Hv IH Ht]; intros k a b Ha Hb.
  - destruct k; discriminate.
  - assert (Hlen : S k < length (p ++ [tuple t])).
    { apply nth_error_Some; congruence. }
    rewrite length_app in Hlen; simpl in Hlen.
    rewrite nth_error_app1 in Ha by lia.
    destruct (Nat.eq_dec (S k) (length p)) as [Heq|Hne].
    + rewrite nth_error_app2 in Hb by lia.
      rewrite Heq, Nat.sub_diag in Hb. injection Hb as <-.
      pose proof (valid_path_length p u Hv) as Hu.
      replace (length p - 1) with k in Hu by lia.
      rewrite Hu in Ha. injection Ha as <-. exact Ht.
    + rewrite nth_error_app1 in Hb by lia. eapply IH; eassumption.
Qed.
End Paths.

(** ** Adjacent swaps connect all the rearrangements of a sequence *)

Lemma successors_adjacent (self : Search) (a b : state) :
  length a = state_length self ->
  In b (successors self a) <-> adjacent a b.
Proof.
  intros Hlen. unfold successors, adjacent. rewrite in_map_iff.
  split; intros (i & H1 & H2).
  - exists i. rewrite in_seq in H2. split; [lia | congruence].
  - exists i. rewrite in_seq. split; [congruence | lia].
Qed.

Lemma adjacent_cons (x : Z) (a b : state) :
  adjacent a b -> adjacent (x :: a) (x :: b).
Proof.
  intros (i & Hi & ->). exists (S i). split; [simpl; lia |].
  symmetry; apply swap_adjacent_cons.
Qed.

Lemma adjacent_chain_cons (x : Z) (a b : state) :
  clos_refl_trans state adjacent a b ->
  clos_refl_trans state adjacent (x :: a) (x :: b).
Proof.
  intros H; induction H as [a b H| |a b c _ IH1 _ IH2].
  - apply rt_step, adjacent_cons, H.
  - apply rt_refl.
  - eapply rt_trans; eassumption.
Qed.

(** Adjacent transpositions generate every permutation. *)
Lemma perm_adjacent_chain (a b : state) :
  Permutation a b -> clos_refl_trans state adjacent a b.
Proof.
  intros H; induction H as [|x a b _ IH|x y l|a b c _ IH1 _ IH2].
  - apply rt_refl.
  - apply adjacent_chain_cons, IH.
  - apply rt_step. exists 0. split; [simpl; lia | reflexivity].
  - eapply rt_trans; eassumption.
Qed.

Lemma valid_path_extend (self : Search) (a b : state) :
  state_length self = length (initial_state self) ->
  clos_refl_trans state adjacent a b ->
  forall p, valid_path self p a -> exists q, valid_path self q b.
Proof.
  intros HN H; induction H as [a b H| |a b c _ IH1 _ IH2]; intros p Hp.
  - exists (p ++ [tuple b]). apply vp_step with a; [assumption |].
    apply successors_adjacent; [| assumption].
    rewrite HN. apply Permutation_length, (valid_path_perm self p), Hp.
  - exists p; assumption.
  - destruct (IH1 p Hp) as (q & Hq). apply (IH2 q Hq).
Qed.

(** The goal of a constructed engine can be reached from its initial state. *)
Lemma goal_reachable (init : state) :
  exists p, valid_path (new_search init) p (goal_state (new_search init)).
Proof.
  apply valid_path_extend with (a := init) (p := [tuple init]).
  - reflexivity.
  - apply perm_adjacent_chain, Permutation_sym, sorted_perm.
  - apply (vp_init (new_search init)).
Qed.

(** ** A finite universe for the visited log *)

Lemma words_complete (A : list Z) (l : list Z) :
  incl l A -> In l (words A (length l)).
Proof.
  induction l as [|x r IH]; intros Hincl; simpl.
  - left; reflexivity.
  - apply in_flat_map. exists x. split.
    + apply Hincl; left; reflexivity.
    + apply in_map, IH. intros y Hy. apply Hincl; right; assumption.
Qed.

Lemma universe_complete (init s : state) :
  Permutation s init -> In s (universe init).
Proof.
  intros Hp. unfold universe.
  rewrite <- (Permutation_length Hp). apply words_complete.
  intros x Hx. eapply Permutation_in; eassumption.
Qed.

(** ** Invariants of the search loop, for any frontier discipline *)

Lemma NoDup_snoc {A : Type} (l : list A) (x : A) :
  NoDup l -> ~ In x l -> NoDup (l ++ [x]).
Proof.
  intros Hl Hx. apply (Permutation_NoDup (Permutation_cons_append l x)).
  constructor; assumption.
Qed.

Section Engine.
Variable self : Search.
Context {E : Type}.
Variable entry_state : E -> state.
Variable entry_path : E -> path.
Variable make_entry : state -> path -> E.
Variable pop : list E -> option (E * list E).
Variable push : list E -> E -> list E.

(** What the proofs need of a frontier: popping takes one entry out of a
    non-empty frontier, pushing puts one entry in. *)
Hypothesis pop_empty : forall F, pop F = None -> F = [].
Hypothesis pop_perm : forall F e F', pop F = Some (e, F') -> Permutation F (e :: F').
Hypothesis push_perm : forall F e, Permutation (push F e) (e :: F).
Hypothesis make_state : forall s p, entry_state (make_entry s p) = s.
Hypothesis make_path : forall s p, entry_path (make_entry s p) = p.

Local Abbreviation loop :=
  (search_loop self entry_state entry_path make_entry pop push).
Local Abbreviation grow := (expand self make_entry push).
Local Abbreviation child := (child_entry make_entry).
Local Abbreviation inv := (frontier_inv self entry_state entry_path).
Local Abbreviation closed := (frontier_closed self entry_state).

Lemma expand_perm (F : list E) (s : state) (p : path) :
  Permutation (grow F s p) (map (child p) (successors self s) ++ F).
Proof.
  unfold expand. generalize (successors self s) as l. intros l; revert F.
  induction l as [|t l IH]; intros F; simpl.
  - apply Permutation_refl.
  - eapply perm_trans; [apply IH |].
    eapply perm_trans; [apply Permutation_app_head, push_perm |].
    apply Permutation_sym, Permutation_middle.
Qed.

Lemma in_expand (e : E) (F : list E) (s : state) (p : path) :
  In e (grow F s p) <->
  (exists t, In t (successors self s) /\ e = child p t) \/ In e F.
Proof.
  split.
  - intros H. apply (Permutation_in _ (expand_perm F s p)) in H.
    apply in_app_or in H as [H|H]; [left | right; assumption].
    apply in_map_iff in H as (t & <- & Ht). exists t; split; auto.
  - intros H. apply (Permutation_in _ (Permutation_sym (expand_perm F s p))).
    apply in_or_app. destruct H as [(t & Ht & ->)|H]; [left | right; assumption].
    apply in_map, Ht.
Qed.

(** *** Well-formedness of the visited log and of the carried paths *)

Lemma inv_skip (F F' : list E) (V : list ident) (e : E) :
  inv F V -> pop F = Some (e, F') -> inv F' V.
Proof.
  intros [H1 H2 H3] Hpop. split; auto.
  intros e' He'. apply H3.
  apply (Permutation_in _ (Permutation_sym (pop_perm _ _ _ Hpop))).
  right; assumption.
Qed.

Lemma inv_popped (F F' : list E) (V : list ident) (e : E) :
  inv F V -> pop F = Some (e, F') -> traced self V (entry_path e) (entry_state e).
Proof.
  intros [_ _ H3] Hpop. apply H3.
  apply (Permutation_in _ (Permutation_sym (pop_perm _ _ _ Hpop))).
  left; reflexivity.
Qed.

Lemma inv_expand (F F' : list E) (V : list ident) (e : E) :
  inv F V -> pop F = Some (e, F') -> ~ In (tuple (entry_state e)) V ->
  inv (grow F' (entry_state e) (entry_path e)) (V ++ [tuple (entry_state e)]).
Proof.
  intros HI Hpop Hnew.
  pose proof (inv_popped _ _ _ _ HI Hpop) as Htr.
  pose proof (inv_skip _ _ _ _ HI Hpop) as [H1 H2 H3].
  assert (Hinc : incl V (V ++ [tuple (entry_state e)])) by (apply incl_appl, incl_refl).
  split.
  - apply NoDup_snoc; assumption.
  - intros v Hv. apply in_app_or in Hv as [Hv|[<-|[]]]; [auto |].
    apply (valid_path_perm self (entry_path e)), (traced_valid self V), Htr.
  - intros e' He'. apply in_expand in He' as [(t & Ht & ->)|He'].
    + unfold child_entry. rewrite make_state, make_path.
      apply tr_step with (entry_state e).
      * eapply traced_mono; eassumption.
      * eapply traced_nodup; eassumption.
      * apply in_or_app; right; left; reflexivity.
      * assumption.
    + eapply traced_mono; [eassumption | auto].
Qed.

(** Every successful result has a duplicate-free log and carries a simple
    path of the graph that ends at the goal and lies inside the log. *)
Lemma loop_sound (fuel : nat) :
  forall F V V' p,
    inv F V -> loop fuel F V = Some (Found V' p) ->
    NoDup V' /\ valid_path self p (goal_state self) /\ NoDup p /\ incl p V'.
Proof.
  induction fuel as [|fuel IH]; intros F V V' p HI Hrun; simpl in Hrun.
  - discriminate.
  - destruct (pop F) as [[e F']|] eqn:Hpop; [| discriminate].
    destruct (visited_dec (tuple (entry_state e)) V) as [Hin|Hnew].
    + eapply IH; [eapply inv_skip; eassumption | eassumption].
    + destruct (state_eq_dec (entry_state e) (goal_state self)) as [Hg|Hg].
      * injection Hrun as <- <-.
        pose proof (inv_popped _ _ _ _ HI Hpop) as Htr. rewrite Hg in *.
        repeat split.
        -- apply NoDup_snoc; [apply HI | assumption].
        -- eapply traced_valid; eassumption.
        -- eapply traced_nodup; eassumption.
        -- apply (traced_incl self _ _ (goal_state self)).
           ++ eapply traced_mono; [| eassumption]. apply incl_appl, incl_refl.
           ++ apply in_or_app; right; left; reflexivity.
      * eapply IH; [eapply inv_expand; eassumption | eassumption].
Qed.

(** *** The frontier never empties before the goal is logged *)

Lemma closed_empty (V : list ident) (p : path) (t : state) :
  closed [] V -> valid_path self p t -> In (tuple t) V.
Proof.
  intros [H1 H2 _] Hv; induction Hv as [|p u t _ IH Ht].
  - destruct H1 as [H1|[]]; assumption.
  - destruct (H2 u t IH Ht) as [H|[]]; assumption.
Qed.

Lemma popped_state (F F' : list E) (e : E) (t : state) :
  pop F = Some (e, F') -> In t (map entry_state F) ->
  t = entry_state e \/ In t (map entry_state F').
Proof.
  intros Hpop Ht.
  apply (Permutation_in _ (Permutation_map entry_state (pop_perm _ _ _ Hpop))) in Ht.
  destruct Ht as [<-|Ht]; auto.
Qed.

Lemma closed_skip (F F' : list E) (V : list ident) (e : E) :
  closed F V -> pop F = Some (e, F') -> In (tuple (entry_state e)) V ->
  closed F' V.
Proof.
  intros [H1 H2 H3] Hpop Hin. split; [| | assumption].
  - destruct H1 as [H1|H1]; [left; assumption |].
    destruct (popped_state _ _ _ _ Hpop H1) as [->|H]; auto.
  - intros u t Hu Ht. destruct (H2 u t Hu Ht) as [H|H]; [left; assumption |].
    destruct (popped_state _ _ _ _ Hpop H) as [->|H']; auto.
Qed.

Lemma closed_expand (F F' : list E) (V : list ident) (e : E) :
  closed F V -> pop F = Some (e, F') ->
  entry_state e <> goal_state self ->
  closed (grow F' (entry_state e) (entry_path e)) (V ++ [tuple (entry_state e)]).
Proof.
  intros [H1 H2 H3] Hpop Hg.
  assert (Hkeep : forall t, In t (map entry_state F) ->
            In (tuple t) (V ++ [tuple (entry_state e)])
            \/ In t (map entry_state (grow F' (entry_state e) (entry_path e)))).
  { intros t Ht. destruct (popped_state _ _ _ _ Hpop Ht) as [->|H].
    - left. apply in_or_app; right; left; reflexivity.
    - right. apply in_map_iff in H as (e' & <- & He').
      apply in_map, in_expand. right; assumption. }
  split.
  - destruct H1 as [H1|H1]; [left; apply in_or_app; left; assumption | auto].
  - intros u t Hu Ht. apply in_app_or in Hu as [Hu|[Hu|[]]].
    + destruct (H2 u t Hu Ht) as [H|H]; [left; apply in_or_app; left; assumption | auto].
    + unfold tuple in Hu; subst u. right.
      apply in_map_iff. exists (child (entry_path e) t). split.
      * apply make_state.
      * apply in_expand. left. exists t; split; auto.
  - intros Hin. apply in_app_or in Hin as [Hin|[Hin|[]]]; [auto |].
    apply Hg. exact Hin.
Qed.

Lemma loop_complete (fuel : nat) :
  forall F V,
    closed F V -> (exists p, valid_path self p (goal_state self)) ->
    loop fuel F V <> Some NotFound.
Proof.
  induction fuel as [|fuel IH]; intros F V HC Hreach; simpl.
  - discriminate.
  - destruct (pop F) as [[e F']|] eqn:Hpop.
    + destruct (visited_dec (tuple (entry_state e)) V) as [Hin|Hnew].
      * apply IH; [eapply closed_skip; eassumption | assumption].
      * destruct (state_eq_dec (entry_state e) (goal_state self)) as [Hg|Hg].
        -- discriminate.
        -- apply IH; [eapply closed_expand; eassumption | assumption].
    + apply pop_empty in Hpop; subst F.
      destruct Hreach as (p & Hp). exfalso.
      pose proof (closed_empty V p _ HC Hp) as Hin.
      destruct HC as [_ _ HC]. apply HC, Hin.
Qed.

(** *** Termination *)

Lemma loop_fuel_mono (fuel : nat) :
  forall F V r k, loop fuel F V = Some r -> loop (fuel + k) F V = Some r.
Proof.
  induction fuel as [|fuel IH]; intros F V r k Hrun; simpl in *.
  - discriminate.
  - destruct (pop F) as [[e F']|]; [| assumption].
    destruct (visited_dec (tuple (entry_state e)) V); [apply IH; assumption |].
    destruct (state_eq_dec (entry_state e) (goal_state self)); [assumption |].
    apply IH; assumption.
Qed.

Lemma inv_bounded (F : list E) (V : list ident) :
  inv F V -> length V <= length (universe (initial_state self)).
Proof.
  intros [H1 H2 _]. apply NoDup_incl_length; [assumption |].
  intros v Hv. apply universe_complete, H2, Hv.
Qed.

(** Each pass either shortens the frontier or lengthens a log that cannot
    outgrow the universe: the loop returns once given enough fuel. *)
Lemma loop_terminates (k : nat) :
  forall n F V,
    inv F V ->
    length (universe (initial_state self)) <= length V + k ->
    length F <= n ->
    exists fuel r, loop fuel F V = Some r.
Proof.
  induction k as [k IHk] using lt_wf_ind.
  induction n as [n IHn] using lt_wf_ind.
  intros F V HI Hk Hn.
  destruct (pop F) as [[e F']|] eqn:Hpop.
  - pose proof (Permutation_length (pop_perm _ _ _ Hpop)) as Hlen; simpl in Hlen.
    destruct (visited_dec (tuple (entry_state e)) V) as [Hin|Hnew].
    + destruct (IHn (length F')) with (F := F') (V := V) as (fuel & r & Hrun);
        [lia | eapply inv_skip; eassumption | assumption | lia |].
      exists (S fuel), r. simpl. rewrite Hpop.
      destruct (visited_dec (tuple (entry_state e)) V); [assumption | contradiction].
    + destruct (state_eq_dec (entry_state e) (goal_state self)) as [Hg|Hg].
      * exists 1. eexists. simpl. rewrite Hpop.
        destruct (visited_dec (tuple (entry_state e)) V); [contradiction |].
        destruct (state_eq_dec (entry_state e) (goal_state self)); [reflexivity | contradiction].
      * pose proof (inv_expand _ _ _ _ HI Hpop Hnew) as HI'.
        pose proof (inv_bounded _ _ HI') as Hb.
        rewrite length_app in Hb; simpl in Hb.
        destruct (IHk (k - 1)) with
          (n := length (grow F' (entry_state e) (entry_path e)))
          (F := grow F' (entry_state e) (entry_path e))
          (V := V ++ [tuple (entry_state e)]) as (fuel & r & Hrun);
          [lia | assumption | rewrite length_app; simpl; lia | lia |].
        exists (S fuel), r. simpl. rewrite Hpop.
        destruct (visited_dec (tuple (entry_state e)) V); [contradiction |].
        destruct (state_eq_dec (entry_state e) (goal_state self)); [contradiction | assumption].
  - exists 1, NotFound. simpl. rewrite Hpop. reflexivity.
Qed.

(** *** From the first frontier *)

Lemma inv_start (e0 : E) :
  entry_state e0 = initial_state self ->
  entry_path e0 = [tuple (initial_state self)] ->
  inv [e0] [].
Proof.
  intros Hs Hp. split.
  - constructor.
  - intros v [].
  - intros e [<-|[]]. rewrite Hs, Hp. constructor.
Qed.

Lemma closed_start (e0 : E) :
  entry_state e0 = initial_state self -> closed [e0] [].
Proof.
  intros Hs. split.
  - right. left. assumption.
  - intros u t [].
  - intros [].
Qed.

Lemma loop_found (e0 : E) :
  entry_state e0 = initial_state self ->
  entry_path e0 = [tuple (initial_state self)] ->
  (exists p, valid_path self p (goal_state self)) ->
  exists fuel V p, loop fuel [e0] [] = Some (Found V p).
Proof.
  intros Hs Hp Hreach.
  destruct (loop_terminates (length (universe (initial_state self))) 1 [e0] [])
    as (fuel & r & Hrun);
    [apply inv_start; assumption | simpl; lia | simpl; lia |].
  exists fuel. destruct r as [V p|].
  - exists V, p. assumption.
  - exfalso. revert Hrun. apply loop_complete; [apply closed_start |]; assumption.
Qed.
End Engine.

(** ** The three disciplines take out what was put in *)

Lemma queue_get_empty {E : Type} (q : list E) : queue_get q = None -> q = [].
Proof. destruct q; [reflexivity | discriminate]. Qed.

Lemma queue_get_perm {E : Type} (q : list E) (e : E) (q' : list E) :
  queue_get q = Some (e, q') -> Permutation q (e :: q').
Proof.
  destruct q; simpl; [discriminate |].
  intros H; injection H as <- <-. apply Permutation_refl.
Qed.

Lemma queue_put_perm {E : Type} (q : list E) (e : E) :
  Permutation (queue_put q e) (e :: q).
Proof. apply Permutation_sym, Permutation_cons_append. Qed.

Lemma stack_pop_empty {E : Type} (st : list E) : stack_pop st = None -> st = [].
Proof. destruct st; [reflexivity | discriminate]. Qed.

Lemma stack_pop_perm {E : Type} (st : list E) (e : E) (st' : list E) :
  stack_pop st = Some (e, st') -> Permutation st (e :: st').
Proof.
  destruct st; simpl; [discriminate |].
  intros H; injection H as <- <-. apply Permutation_refl.
Qed.

Lemma stack_append_perm {E : Type} (st : list E) (e : E) :
  Permutation (stack_append st e) (e :: st).
Proof. apply Permutation_refl. Qed.

Lemma extract_min_perm {E : Type} (ltb : E -> E -> bool) (h : list E) :
  forall e m r, extract_min ltb e h = (m, r) -> Permutation (e :: h) (m :: r).
Proof.
  induction h as [|x h IH]; intros e m r Hex; simpl in Hex.
  - injection Hex as <- <-. apply Permutation_refl.
  - destruct (extract_min ltb x h) as [m' r'] eqn:Hrec.
    specialize (IH x m' r' Hrec).
    destruct (ltb m' e); injection Hex as <- <-.
    + eapply perm_trans; [apply perm_skip, IH | apply perm_swap].
    + apply perm_skip, IH.
Qed.

Lemma heappop_empty {E : Type} (ltb : E -> E -> bool) (h : list E) :
  heappop ltb h = None -> h = [].
Proof. destruct h; [reflexivity | discriminate]. Qed.

Lemma heappop_perm {E : Type} (ltb : E -> E -> bool) (h : list E) (e : E) (h' : list E) :
  heappop ltb h = Some (e, h') -> Permutation h (e :: h').
Proof.
  destruct h as [|x h]; simpl; [discriminate |].
  intros H; injection H as H. apply (extract_min_perm ltb), H.
Qed.

Lemma heappush_perm {E : Type} (h : list E) (e : E) :
  Permutation (heappush h e) (e :: h).
Proof. apply Permutation_refl. Qed.

(** ** The heap gives out a least entry *)

Section SeqOrder.
Context {A : Type}.
Variable eqb ltb : A -> A -> bool.
Hypothesis eqb_eq : forall a b, eqb a b = true <-> a = b.
Hypothesis ltb_order : strict_total ltb.

Lemma eqb_refl_true (a : A) : eqb a a = true.
Proof. apply eqb_eq; reflexivity. Qed.

Lemma eqb_false_neq (a b : A) : eqb a b = false -> a <> b.
Proof. intros H Heq. apply eqb_eq in Heq. congruence. Qed.

Lemma seq_ltb_irrefl (a : list A) : seq_ltb eqb ltb a a = false.
Proof.
  induction a as [|x a IH]; simpl; [reflexivity |].
  rewrite eqb_refl_true. exact IH.
Qed.

Lemma seq_ltb_trans (a : list A) :
  forall b c,
    seq_ltb eqb ltb a b = true -> seq_ltb eqb ltb b c = true ->
    seq_ltb eqb ltb a c = true.
Proof.
  destruct ltb_order as [Hirr Htr Htot].
  induction a as [|x a IH]; intros [|y b] [|z c] H1 H2; simpl in *;
    try discriminate; try reflexivity.
  destruct (eqb x y) eqn:Exy; destruct (eqb y z) eqn:Eyz.
  - apply eqb_eq in Exy, Eyz; subst. rewrite eqb_refl_true. eapply IH; eassumption.
  - apply eqb_eq in Exy; subst. rewrite Eyz. exact H2.
  - apply eqb_eq in Eyz; subst. rewrite Exy. exact H1.
  - pose proof (Htr _ _ _ H1 H2) as Hxz.
    destruct (eqb x z) eqn:Exz; [| exact Hxz].
    apply eqb_eq in Exz; subst. rewrite Hirr in Hxz. discriminate.
Qed.

Lemma seq_ltb_total (a : list A) :
  forall b,
    seq_ltb eqb ltb a b = true \/ a = b \/ seq_ltb eqb ltb b a = true.
Proof.
  destruct ltb_order as [Hirr Htr Htot].
  induction a as [|x a IH]; intros [|y b]; simpl.
  - right; left; reflexivity.
  - left; reflexivity.
  - right; right; reflexivity.
  - destruct (eqb x y) eqn:Exy.
    + apply eqb_eq in Exy; subst. rewrite eqb_refl_true.
      destruct (IH b) as [H|[->|H]]; auto.
    + pose proof (eqb_false_neq _ _ Exy) as Hxy.
      destruct (eqb y x) eqn:Eyx; [apply eqb_eq in Eyx; congruence |].
      destruct (Htot x y) as [H|[H|H]]; try contradiction; auto.
Qed.

Lemma seq_ltb_order : strict_total (seq_ltb eqb ltb).
Proof.
  split; [apply seq_ltb_irrefl | intros a; apply seq_ltb_trans | apply seq_ltb_total].
Qed.
End SeqOrder.

Section LexOrder.
Context {A B : Type}.
Variable eqbA ltbA : A -> A -> bool.
Variable ltbB : B -> B -> bool.
Hypothesis eqbA_eq : forall a b, eqbA a b = true <-> a = b.
Hypothesis ltbA_order : strict_total ltbA.
Hypothesis ltbB_order : strict_total ltbB.

Lemma lex_ltb_order : strict_total (lex_ltb eqbA ltbA ltbB).
Proof.
  destruct ltbA_order as [HirrA HtrA HtotA]. destruct ltbB_order as [HirrB HtrB HtotB].
  unfold lex_ltb. split.
  - intros [a b]; simpl. rewrite (eqb_refl_true eqbA eqbA_eq). simpl. apply HirrB.
  - intros [a1 b1] [a2 b2] [a3 b3]; simpl.
    destruct (eqbA a1 a2) eqn:E12; destruct (eqbA a2 a3) eqn:E23; simpl; intros H1 H2.
    + apply eqbA_eq in E12, E23; subst.
      rewrite (eqb_refl_true eqbA eqbA_eq); simpl. eapply HtrB; eassumption.
    + apply eqbA_eq in E12; subst. rewrite E23; simpl. exact H2.
    + apply eqbA_eq in E23; subst. rewrite E12; simpl. exact H1.
    + pose proof (HtrA _ _ _ H1 H2) as H13.
      destruct (eqbA a1 a3) eqn:E13; simpl; [| exact H13].
      apply eqbA_eq in E13; subst. rewrite HirrA in H13. discriminate.
  - intros [a1 b1] [a2 b2]; simpl.
    destruct (eqbA a1 a2) eqn:E12; simpl.
    + apply eqbA_eq in E12; subst. rewrite (eqb_refl_true eqbA eqbA_eq); simpl.
      destruct (HtotB b1 b2) as [H|[->|H]]; auto.
    + pose proof (eqb_false_neq eqbA eqbA_eq _ _ E12) as Hne12.
      destruct (eqbA a2 a1) eqn:E21; [apply eqbA_eq in E21; congruence |]. simpl.
      destruct (HtotA a1 a2) as [H|[H|H]]; try contradiction; auto.
Qed.
End LexOrder.

Lemma strict_total_pullback {A B : Type} (f : A -> B) (ltbA : A -> A -> bool)
  (ltbB : B -> B -> bool) :
  (forall a b, f a = f b -> a = b) ->
  (forall a b, ltbA a b = ltbB (f a) (f b)) ->
  strict_total ltbB -> strict_total ltbA.
Proof.
  intros Hinj Heq [Hirr Htr Htot]. split.
  - intros a. rewrite Heq. apply Hirr.
  - intros a b c. rewrite !Heq. apply Htr.
  - intros a b. rewrite !Heq.
    destruct (Htot (f a) (f b)) as [H|[H|H]]; auto.
Qed.

Lemma Z_ltb_order : strict_total Z.ltb.
Proof.
  split.
  - intros a. apply Z.ltb_irrefl.
  - intros a b c H1 H2. apply Z.ltb_lt in H1, H2. apply Z.ltb_lt. lia.
  - intros a b. rewrite !Z.ltb_lt. lia.
Qed.

Lemma state_eqb_eq (a b : state) : state_eqb a b = true <-> a = b.
Proof.
  unfold state_eqb. destruct (state_eq_dec a b); split; intros H; congruence.
Qed.

Lemma state_ltb_order : strict_total state_ltb.
Proof. apply seq_ltb_order; [apply Z.eqb_eq | apply Z_ltb_order]. Qed.

Lemma path_ltb_order : strict_total path_ltb.
Proof. apply seq_ltb_order; [apply state_eqb_eq | apply state_ltb_order]. Qed.

Lemma entry3_ltb_order : strict_total entry3_ltb.
Proof.
  apply (strict_total_pullback
           (fun e : Z * state * path => (fst (fst e), (snd (fst e), snd e)))
           entry3_ltb
           (lex_ltb Z.eqb Z.ltb (lex_ltb state_eqb state_ltb path_ltb))).
  - intros [[k s] p] [[k' s'] p'] H; simpl in H. congruence.
  - intros [[k s] p] [[k' s'] p']. reflexivity.
  - apply lex_ltb_order; [apply Z.eqb_eq | apply Z_ltb_order |].
    apply lex_ltb_order; [apply state_eqb_eq | apply state_ltb_order | apply path_ltb_order].
Qed.

Lemma entry4_ltb_order : strict_total entry4_ltb.
Proof.
  apply (strict_total_pullback
           (fun e : Z * Z * state * path =>
              (fst (fst (fst e)), (snd (fst (fst e)), snd (fst e), snd e)))
           entry4_ltb
           (lex_ltb Z.eqb Z.ltb entry3_ltb)).
  - intros [[[f c] s] p] [[[f' c'] s'] p'] H; simpl in H. congruence.
  - intros [[[f c] s] p] [[[f' c'] s'] p']. reflexivity.
  - apply lex_ltb_order; [apply Z.eqb_eq | apply Z_ltb_order | apply entry3_ltb_order].
Qed.

Lemma strict_total_not_above {E : Type} (ltb : E -> E -> bool) (a b c : E) :
  strict_total ltb ->
  ltb b a = false -> ltb c b = false -> ltb c a = false.
Proof.
  intros [Hirr Htr Htot] Hba Hcb.
  destruct (ltb c a) eqn:Hca; [| reflexivity].
  destruct (Htot b a) as [H|[->|H]]; [congruence | congruence |].
  rewrite (Htr _ _ _ Hca H) in Hcb. discriminate.
Qed.

(** No entry of the heap is below the one that [heappop] returns. *)
Lemma extract_min_least {E : Type} (ltb : E -> E -> bool) (h : list E) :
  strict_total ltb ->
  forall e m r, extract_min ltb e h = (m, r) ->
    forall x, In x (e :: h) -> ltb x m = false.
Proof.
  intros Hord. pose proof Hord as [Hirr Htr Htot].
  induction h as [|x0 h IH]; intros e m r Hex x Hx; simpl in Hex.
  - injection Hex as <- <-. destruct Hx as [<-|[]]. apply Hirr.
  - destruct (extract_min ltb x0 h) as [m' r'] eqn:Hrec.
    specialize (IH x0 m' r' Hrec).
    destruct (ltb m' e) eqn:Hlt; injection Hex as <- <-.
    + destruct Hx as [<-|Hx]; [| apply IH, Hx].
      destruct (ltb e m') eqn:Hem; [| reflexivity].
      pose proof (Hirr m') as Hm. rewrite (Htr _ _ _ Hlt Hem) in Hm. discriminate.
    + destruct Hx as [<-|Hx]; [apply Hirr |].
      apply (strict_total_not_above ltb e m' x Hord Hlt), IH, Hx.
Qed.

Lemma heappop_least {E : Type} (ltb : E -> E -> bool) (h : list E) (m : E) (h' : list E) :
  strict_total ltb ->
  heappop ltb h = Some (m, h') ->
  forall x, In x h -> ltb x m = false.
Proof.
  intros Hord Hpop. destruct h as [|e h]; simpl in Hpop; [discriminate |].
  injection Hpop as Hex. apply (extract_min_least ltb h Hord e m h' Hex).
Qed.

(** The entries of uniform-cost and greedy search, and those of A-star, come
    out of the heap least first. *)
Lemma heappop_entries_least :
  (forall (h : list entry3) m h',
      heappop entry3_ltb h = Some (m, h') ->
      forall x, In x h -> entry3_ltb x m = false)
  /\ (forall (h : list entry4) m h',
        heappop entry4_ltb h = Some (m, h') ->
        forall x, In x h -> entry4_ltb x m = false).
Proof.
  split; intros h m h'.
  - apply heappop_least, entry3_ltb_order.
  - apply heappop_least, entry4_ltb_order.
Qed.


(** ** The five strategies as instances of the loop *)

Lemma run_ops_of (st : strategy) (self : Search) (fuel : nat) :
  run st self fuel = run_ops self (ops_of st self) fuel.
Proof. destruct st; reflexivity. Qed.

Lemma ops_lawful (st : strategy) (self : Search) : lawful self (ops_of st self).
Proof.
  destruct st; split; simpl; try reflexivity;
    first [ apply queue_get_empty | apply queue_get_perm | apply queue_put_perm
          | apply stack_pop_empty | apply stack_pop_perm | apply stack_append_perm
          | apply heappop_empty | apply heappop_perm | apply heappush_perm ].
Qed.

Lemma run_sound (st : strategy) (self : Search) (fuel : nat) (V : list ident) (p : path) :
  run st self fuel = Some (Found V p) ->
  NoDup V /\ valid_path self p (goal_state self) /\ NoDup p /\ incl p V.
Proof.
  rewrite run_ops_of. destruct (ops_lawful st self) as [L1 L2 L3 L4 L5 L6 L7].
  unfold run_ops. apply loop_sound; try assumption.
  apply inv_start; assumption.
Qed.

Lemma run_fuel_mono (st : strategy) (self : Search) (fuel k : nat) (r : search_result) :
  run st self fuel = Some r -> run st self (fuel + k) = Some r.
Proof. rewrite !run_ops_of. apply loop_fuel_mono. Qed.

Lemma run_found (st : strategy) (init : state) :
  exists fuel V p, run st (new_search init) fuel = Some (Found V p).
Proof.
  destruct (ops_lawful st (new_search init)) as [L1 L2 L3 L4 L5 L6 L7].
  destruct (loop_found (new_search init) _ _ _ _ _ L1 L2 L3 L4 L5 _ L6 L7
              (goal_reachable init)) as (fuel & V & p & Hrun).
  exists fuel, V, p. rewrite run_ops_of. exact Hrun.
Qed.

Lemma run_not_exhausted (st : strategy) (init : state) (fuel : nat) :
  run st (new_search init) fuel <> Some NotFound.
Proof.
  destruct (ops_lawful st (new_search init)) as [L1 L2 L3 L4 L5 L6 L7].
  rewrite run_ops_of. unfold run_ops.
  apply loop_complete; try assumption.
  - apply closed_start; assumption.
  - apply goal_reachable.
Qed.

(** ** Breadth-first search returns a shortest path *)

Section BreadthFirst.
Variable self : Search.

Local Abbreviation bfs_loop :=
  (search_loop self (fst : entry2 -> state) snd pair queue_get queue_put).

Lemma bfs_expand (F : list entry2) (s : state) (p : path) :
  expand self pair queue_put F s p
  = F ++ map (fun t => (t, p ++ [tuple t])) (successors self s).
Proof.
  unfold expand. generalize (successors self s) as l. intros l; revert F.
  induction l as [|t l IH]; intros F; simpl.
  - symmetry; apply app_nil_r.
  - rewrite IH. unfold queue_put. rewrite <- app_assoc. reflexivity.
Qed.

Lemma valid_path_nonempty (p : path) (s : state) :
  valid_path self p s -> 1 <= length p.
Proof.
  intros Hv; destruct Hv; simpl; [lia |].
  rewrite length_app; simpl; lia.
Qed.

Lemma layered_start :
  layered self 1 [(initial_state self, [tuple (initial_state self)])] [] [].
Proof.
  split.
  - lia.
  - intros e [<-|[]]; reflexivity.
  - intros e [].
  - intros q t Hv Hlen. apply valid_path_nonempty in Hv. lia.
  - intros q t Hv Hlen. right. left. simpl.
    destruct Hv as [|p u t Hv Ht]; [reflexivity |].
    apply valid_path_nonempty in Hv. rewrite length_app in Hlen; simpl in Hlen. lia.
  - intros u t [].
Qed.

Lemma layered_shift (d : nat) (Q2 : list entry2) (V : list ident) :
  layered self d [] Q2 V -> layered self (S d) Q2 [] V.
Proof.
  intros [H0 H1 H2 H3 H4 H5]. split.
  - lia.
  - assumption.
  - intros e [].
  - intros q t Hv Hlen.
    destruct (Nat.eq_dec (length q) d) as [Heq|Hne].
    + destruct (H4 q t Hv Heq) as [H|[]]; assumption.
    + apply (H3 q t Hv). lia.
  - intros q t Hv Hlen.
    destruct Hv as [|p u t Hv Ht]; [simpl in Hlen; lia |].
    rewrite length_app in Hlen; simpl in Hlen.
    destruct (H4 p u Hv) as [Hu|[]]; [lia |].
    destruct (H5 u t Hu Ht) as [H|H]; [left; assumption | right; assumption].
  - intros u t Hu Ht. rewrite app_nil_r. apply (H5 u t Hu Ht).
Qed.

Lemma layered_skip (d : nat) (e : entry2) (Q1 Q2 : list entry2) (V : list ident) :
  layered self d (e :: Q1) Q2 V -> In (tuple (fst e)) V -> layered self d Q1 Q2 V.
Proof.
  intros [H0 H1 H2 H3 H4 H5] Hin. split; try assumption.
  - intros e' He'. apply H1. right; assumption.
  - intros q t Hv Hlen. destruct (H4 q t Hv Hlen) as [H|[<-|H]]; auto.
  - intros u t Hu Ht. destruct (H5 u t Hu Ht) as [H|[<-|H]]; auto.
Qed.

Lemma layered_expand (d : nat) (e : entry2) (Q1 Q2 : list entry2) (V : list ident) :
  layered self d (e :: Q1) Q2 V ->
  layered self d Q1
    (Q2 ++ map (fun t => (t, snd e ++ [tuple t])) (successors self (fst e)))
    (V ++ [tuple (fst e)]).
Proof.
  intros [H0 H1 H2 H3 H4 H5]. split.
  - assumption.
  - intros e' He'. apply H1. right; assumption.
  - intros e' He'. apply in_app_or in He' as [He'|He']; [auto |].
    apply in_map_iff in He' as (t & <- & _). simpl.
    rewrite length_app, (H1 e) by (left; reflexivity). simpl; lia.
  - intros q t Hv Hlen. apply in_or_app. left. eapply H3; eassumption.
  - intros q t Hv Hlen. destruct (H4 q t Hv Hlen) as [H|[<-|H]].
    + left. apply in_or_app; left; assumption.
    + left. apply in_or_app; right; left; reflexivity.
    + right; assumption.
  - intros u t Hu Ht. apply in_app_or in Hu as [Hu|[Hu|[]]].
    + destruct (H5 u t Hu Ht) as [H|[<-|H]].
      * left. apply in_or_app; left; assumption.
      * left. apply in_or_app; right; left; reflexivity.
      * right. rewrite map_app in *. rewrite map_app.
        apply in_app_or in H as [H|H]; apply in_or_app; [left; assumption | right].
        apply in_or_app; left; assumption.
    + unfold tuple in Hu; subst u. right.
      rewrite !map_app. apply in_or_app; right. apply in_or_app; right.
      rewrite map_map. simpl. rewrite map_id. assumption.
Qed.

(** A non-empty layered self queue can be read with its head in the current layer. *)
Lemma layered_head (d : nat) (Q1 Q2 : list entry2) (V : list ident) (e : entry2)
  (Q : list entry2) :
  layered self d Q1 Q2 V -> Q1 ++ Q2 = e :: Q ->
  exists d' Q1' Q2', layered self d' (e :: Q1') Q2' V /\ Q = Q1' ++ Q2'.
Proof.
  intros HL Heq. destruct Q1 as [|e1 Q1]; simpl in Heq.
  - subst Q2. exists (S d), Q, []. split; [apply layered_shift, HL |].
    symmetry; apply app_nil_r.
  - injection Heq as -> <-. exists d, Q1, Q2. split; [assumption | reflexivity].
Qed.

Lemma bfs_loop_shortest (fuel : nat) :
  forall d Q1 Q2 V V' p,
    layered self d Q1 Q2 V ->
    bfs_loop fuel (Q1 ++ Q2) V = Some (Found V' p) ->
    forall q, valid_path self q (goal_state self) -> length p <= length q.
Proof.
  induction fuel as [|fuel IH]; intros d Q1 Q2 V V' p HL Hrun q Hq; simpl in Hrun.
  - discriminate.
  - destruct (Q1 ++ Q2) as [|e Q] eqn:HQ; simpl in Hrun; [discriminate |].
    destruct (layered_head _ _ _ _ _ _ HL HQ) as (d' & Q1' & Q2' & HL' & ->).
    destruct (visited_dec (tuple (fst e)) V) as [Hin|Hnew].
    + eapply IH; [eapply layered_skip; eassumption | eassumption | assumption].
    + destruct (state_eq_dec (fst e) (goal_state self)) as [Hg|Hg].
      * injection Hrun as _ <-.
        rewrite (lay_cur _ _ _ _ _ HL' e) by (left; reflexivity).
        destruct (Nat.le_gt_cases d' (length q)) as [Hle|Hlt]; [assumption |].
        exfalso. apply Hnew. rewrite Hg.
        apply (lay_below _ _ _ _ _ HL' q); assumption.
      * rewrite bfs_expand, <- app_assoc in Hrun.
        eapply IH; [apply layered_expand; eassumption | eassumption | assumption].
Qed.
End BreadthFirst.

(** ** The inversion count, read from the left *)

Lemma index_pairs_S (n : nat) :
  index_pairs (S n) = map (pair 0) (seq 1 n) ++ map shift_pair (index_pairs n).
Proof.
  unfold index_pairs. rewrite <- cons_seq. simpl flat_map at 1.
  rewrite Nat.sub_0_r. f_equal.
  rewrite <- seq_shift, flat_map_concat_map, map_map.
  rewrite flat_map_concat_map, concat_map, map_map. f_equal.
  apply map_ext. intros i.
  replace (S n - (S i + 1)) with (n - (i + 1)) by lia.
  replace (S i + 1) with (S (i + 1)) by lia.
  rewrite <- seq_shift, !map_map. reflexivity.
Qed.

Lemma filter_map_length {A B : Type} (f : B -> bool) (g : A -> B) (l : list A) :
  length (filter f (map g l)) = length (filter (fun a => f (g a)) l).
Proof.
  induction l as [|a l IH]; simpl; [reflexivity |].
  destruct (f (g a)); simpl; rewrite IH; reflexivity.
Qed.

Lemma filter_seq_items (f : Z -> bool) (r : list Z) (x : Z) :
  length (filter (fun j => f (item (x :: r) j)) (seq 1 (length r)))
  = length (filter f r).
Proof.
  rewrite <- seq_shift, filter_map_length. simpl.
  rewrite <- (filter_map_length f (fun j => nth j r 0%Z)).
  f_equal. f_equal.
  clear x. induction r as [|y r IH]; simpl; [reflexivity |].
  rewrite <- seq_shift, map_map. simpl. f_equal. exact IH.
Qed.

Lemma inversion_heuristic_cons (x : Z) (r : state) :
  inversion_heuristic (x :: r)
  = length (filter (fun y => (x >? y)%Z) r) + inversion_heuristic r.
Proof.
  unfold inversion_heuristic. fold (index_pairs (length (x :: r))).
  fold (index_pairs (length r)). simpl length.
  rewrite index_pairs_S, filter_app, length_app. f_equal.
  - rewrite filter_map_length. simpl.
    apply (filter_seq_items (fun y => (x >? y)%Z)).
  - rewrite filter_map_length. reflexivity.
Qed.

(** A state with an inversion has at least two values. *)
Lemma inversion_needs_two (s : state) :
  inversion_heuristic s <> 0 -> 2 <= length s.
Proof.
  destruct s as [|x [|y r]]; simpl; intros H; try lia; exfalso; apply H; reflexivity.
Qed.

Lemma sorted_no_inversion (s : state) :
  Sorted Z.le s -> inversion_heuristic s = 0.
Proof.
  intros Hs. apply Sorted_StronglySorted in Hs; [| intros a b c; apply Z.le_trans].
  induction Hs as [|x r Hr IH Hx].
  - reflexivity.
  - rewrite inversion_heuristic_cons, IH.
    replace (filter (fun y => (x >? y)%Z) r) with (@nil Z); [reflexivity |].
    clear IH Hr. induction Hx as [|y r Hy _ IH']; simpl; [reflexivity |].
    destruct (Z.gtb_spec x y); [lia | exact IH'].
Qed.

(** ** Hill climbing *)

Lemma min_from_spec (key : state -> nat) (l : list state) :
  forall best,
    (min_from key best l = best \/ In (min_from key best l) l)
    /\ key (min_from key best l) <= key best
    /\ forall t, In t l -> key (min_from key best l) <= key t.
Proof.
  induction l as [|x l IH]; intros best; simpl.
  - repeat split; [left; reflexivity | lia | intros t []].
  - destruct (IH (if key x <? key best then x else best)) as (H1 & H2 & H3).
    destruct (Nat.ltb_spec (key x) (key best)) as [Hlt|Hge]; repeat split.
    + destruct H1 as [->|H1]; right; [left; reflexivity | right; assumption].
    + lia.
    + intros t [<-|Ht]; [assumption | apply H3, Ht].
    + destruct H1 as [->|H1]; [left; reflexivity | right; right; assumption].
    + assumption.
    + intros t [<-|Ht]; [lia | apply H3, Ht].
Qed.

Lemma py_min_spec (key : state -> nat) (l : list state) (b : state) :
  py_min key l = Some b ->
  In b l /\ forall t, In t l -> key b <= key t.
Proof.
  destruct l as [|x l]; simpl; [discriminate |].
  intros H; injection H as <-.
  destruct (min_from_spec key l x) as (H1 & H2 & H3). split.
  - destruct H1 as [->|H1]; [left; reflexivity | right; assumption].
  - intros t [<-|Ht]; [assumption | apply H3, Ht].
Qed.

Lemma hill_climbing_iteration_spec (self : Search) (cur : state) (n : nat) :
  length cur = state_length self ->
  iteration_spec self cur n (hill_climbing_iteration self cur n).
Proof.
  intros Hlen. unfold hill_climbing_iteration.
  destruct (Nat.eqb_spec (inversion_heuristic cur) 0) as [Hz|Hnz]; simpl.
  - split; [reflexivity | left; split; [assumption | reflexivity]].
  - destruct (py_min inversion_heuristic (successors self cur)) as [best|] eqn:Hmin.
    + destruct (py_min_spec _ _ _ Hmin) as (Hin & Hleast).
      rewrite successors_count.
      destruct (Nat.leb_spec (inversion_heuristic cur) (inversion_heuristic best))
        as [Hle|Hlt]; simpl.
      * split; [reflexivity | right].
        split; [assumption | split; [| reflexivity]].
        intros t Ht. specialize (Hleast t Ht). lia.
      * split; [assumption | split; [assumption | split; [assumption | reflexivity]]].
    + apply inversion_needs_two in Hnz.
      pose proof (successors_count self cur) as Hc.
      destruct (successors self cur); [simpl in Hc; lia | discriminate].
Qed.

Lemma hill_climbing_loop_returns (self : Search) (fuel : nat) :
  forall cur n,
    length cur = state_length self ->
    inversion_heuristic cur < fuel ->
    exists s m, hill_climbing_loop self fuel cur n = Some (Returned s m).
Proof.
  induction fuel as [|fuel IH]; intros cur n Hlen Hfuel; [lia |].
  simpl. pose proof (hill_climbing_iteration_spec self cur n Hlen) as Hspec.
  destruct (hill_climbing_iteration self cur n) as [[s m|]|best n']; simpl in Hspec.
  - exists s, m; reflexivity.
  - contradiction.
  - destruct Hspec as (Hin & Hlt & _). apply IH; [| lia].
    rewrite (successors_length self cur best Hin). assumption.
Qed.

Lemma hill_climbing_loop_mono (self : Search) (fuel : nat) :
  forall cur n r k,
    hill_climbing_loop self fuel cur n = Some r ->
    hill_climbing_loop self (fuel + k) cur n = Some r.
Proof.
  induction fuel as [|fuel IH]; intros cur n r k Hrun; simpl in *.
  - discriminate.
  - destruct (hill_climbing_iteration self cur n); [assumption | apply IH, Hrun].
Qed.

Lemma index_found (x : ident) (l : list ident) :
  In x l -> exists i, index x l = Some i /\ nth_error l i = Some x.
Proof.
  induction l as [|y r IH]; simpl; intros Hin; [contradiction |].
  destruct (state_eq_dec y x) as [->|Hne].
  - exists 0; split; reflexivity.
  - destruct Hin as [Heq|Hin]; [contradiction |].
    destruct (IH Hin) as (i & -> & Hi). exists (S i); split; [reflexivity | exact Hi].
Qed.

Lemma print_final_path_succeeds (V : list ident) (p : path) :
  incl p V ->
  exists lines,
    print_final_path V p = Some lines
    /\ map snd lines = p
    /\ forall i s, In (i, s) lines -> nth_error V i = Some s.
Proof.
  induction p as [|s r IH]; intros Hincl; simpl.
  - exists []; repeat split. intros i s [].
  - destruct (index_found s V) as (i & -> & Hi); [apply Hincl; left; reflexivity |].
    destruct IH as (lines & -> & Hmap & Hall).
    { intros x Hx; apply Hincl; right; assumption. }
    exists ((i, s) :: lines); simpl. repeat split.
    + rewrite Hmap; reflexivity.
    + intros j t [Heq|Hin]; [injection Heq as <- <-; assumption | apply Hall, Hin].
Qed.

(** ** Properties of the engine *)

(** C1. From every initial sequence each of the five frontier strategies
    terminates (any sufficient amount of fuel gives the same result) and
    returns a visited log with a path whose last entry is the ascending sort
    of the initial sequence; the exhausted-frontier result is never
    returned. *)
Theorem frontier_search_reaches_sorted (st : strategy) (init : state) :
  (exists fuel V p,
      (forall k, run st (new_search init) (fuel + k) = Some (Found V p))
      /\ last p [] = tuple (sorted init))
  /\ (forall fuel, run st (new_search init) fuel <> Some NotFound)
  /\ Sorted Z.le (sorted init) /\ Permutation (sorted init) init.
Proof.
  split; [| split; [| split]].
  - destruct (run_found st init) as (fuel & V & p & Hrun).
    exists fuel, V, p. split.
    + intros k. apply run_fuel_mono, Hrun.
    + apply run_sound in Hrun as (_ & Hv & _).
      apply (valid_path_last (new_search init)), Hv.
  - apply run_not_exhausted.
  - apply sorted_Sorted.
  - apply sorted_perm.
Qed.

(** C2. Whenever breadth-first search and any of the five strategies both
    succeed from the same initial sequence, the breadth-first path has no
    more transitions than the other path. *)
Theorem breadth_first_path_shortest (st : strategy) (init : state)
  (fuel1 fuel2 : nat) (V1 V2 : list ident) (p1 p2 : path) :
  breadth_first_search (new_search init) fuel1 = Some (Found V1 p1) ->
  run st (new_search init) fuel2 = Some (Found V2 p2) ->
  length p1 - 1 <= length p2 - 1.
Proof.
  intros Hbfs Hrun. apply run_sound in Hrun as (_ & Hv & _).
  unfold breadth_first_search in Hbfs.
  pose proof (bfs_loop_shortest (new_search init) fuel1 1
                [(init, [tuple init])] [] [] V1 p1
                (layered_start (new_search init)) Hbfs p2 Hv).
  lia.
Qed.

Lemma breadth_first_path_shortest_witness :
  breadth_first_search (new_search [3; 1; 2]%Z) 20
  = Some (Found [[3; 1; 2]; [1; 3; 2]; [3; 2; 1]; [1; 2; 3]]%Z
                [[3; 1; 2]; [1; 3; 2]; [1; 2; 3]]%Z)
  /\ run DepthFirst (new_search [3; 1; 2]%Z) 20
     = Some (Found [[3; 1; 2]; [3; 2; 1]; [2; 3; 1]; [2; 1; 3]; [1; 2; 3]]%Z
                   [[3; 1; 2]; [3; 2; 1]; [2; 3; 1]; [2; 1; 3]; [1; 2; 3]]%Z)
  /\ 3 - 1 <= 5 - 1.
Proof.
  split; [vm_compute; reflexivity |].
  split; [vm_compute; reflexivity |].
  apply (breadth_first_path_shortest DepthFirst [3; 1; 2]%Z 20 20
           [[3; 1; 2]; [1; 3; 2]; [3; 2; 1]; [1; 2; 3]]%Z
           [[3; 1; 2]; [3; 2; 1]; [2; 3; 1]; [2; 1; 3]; [1; 2; 3]]%Z
           [[3; 1; 2]; [1; 3; 2]; [1; 2; 3]]%Z
           [[3; 1; 2]; [3; 2; 1]; [2; 3; 1]; [2; 1; 3]; [1; 2; 3]]%Z);
    vm_compute; reflexivity.
Defined.

(** C3. On a state of the stored length N the successor generator returns
    N-1 states (none when N is 0, where [range(N - 1)] is empty); the i-th
    one, for i from 0 to N-2 in this order, is the input with the values at
    positions i and i+1 exchanged and every other position unchanged.  The
    result is built from slices of the input, which is left as it is. *)
Theorem successors_adjacent_swaps (self : Search) (s : state) :
  length s = state_length self ->
  length (successors self s) = state_length self - 1
  /\ forall i, i < state_length self - 1 ->
       exists t,
         nth_error (successors self s) i = Some t
         /\ t = swap_adjacent i s
         /\ length t = length s
         /\ forall k, nth_error t k = nth_error s (transpose i k).
Proof.
  intros Hlen. split; [apply successors_count |].
  intros i Hi. exists (swap_adjacent i s). repeat split.
  - apply successors_nth_error, Hi.
  - apply Permutation_length, swap_adjacent_perm.
  - intros k. apply swap_adjacent_nth_error. lia.
Qed.

Lemma successors_adjacent_swaps_witness :
  length [3; 1; 2]%Z = state_length (new_search [3; 1; 2]%Z)
  /\ successors (new_search [3; 1; 2]%Z) [3; 1; 2]%Z = [[1; 3; 2]; [3; 2; 1]]%Z
  /\ length (successors (new_search [3; 1; 2]%Z) [3; 1; 2]%Z) = 2.
Proof.
  split; [reflexivity |]. split; [reflexivity |].
  apply (successors_adjacent_swaps (new_search [3; 1; 2]%Z) [3; 1; 2]%Z).
  reflexivity.
Defined.

(** C4. The path of every successful result of the five strategies starts
    with the identity of the initial state, ends with the identity of the goal
    state, and each entry after the first is obtained from the entry before it
    by one swap of two neighbouring values, and differs from it. *)
Theorem path_well_formed (st : strategy) (init : state) (fuel : nat)
  (V : list ident) (p : path) :
  run st (new_search init) fuel = Some (Found V p) ->
  hd_error p = Some (tuple (initial_state (new_search init)))
  /\ last p [] = tuple (goal_state (new_search init))
  /\ forall k a b,
       nth_error p k = Some a -> nth_error p (S k) = Some b ->
       adjacent a b /\ a <> b.
Proof.
  intros Hrun. apply run_sound in Hrun as (_ & Hv & Hnd & _).
  split; [apply (valid_path_head _ _ _ Hv) |].
  split; [apply (valid_path_last _ _ _ Hv) |].
  intros k a b Ha Hb. split.
  - apply (successors_adjacent (new_search init)).
    + pose proof (nth_error_In _ _ Ha) as Hin.
      assert (Hperm : forall x, In x p -> length x = length init).
      { clear -Hv. induction Hv as [|q u t Hq IH Ht]; intros x Hx.
        - destruct Hx as [<-|[]]; reflexivity.
        - apply in_app_or in Hx as [Hx|[<-|[]]]; [apply IH, Hx |].
          apply Permutation_length.
          apply (valid_path_perm (new_search init) (q ++ [tuple t])).
          apply vp_step with u; assumption. }
      apply Hperm, Hin.
    + eapply valid_path_consecutive; eassumption.
  - intros ->. rewrite NoDup_nth_error in Hnd.
    assert (Hk : k < length p) by (apply nth_error_Some; congruence).
    specialize (Hnd k (S k) Hk). rewrite Ha, Hb in Hnd.
    specialize (Hnd eq_refl). lia.
Qed.

Lemma path_well_formed_witness :
  hd_error [[3; 1; 2]; [1; 3; 2]; [1; 2; 3]]%Z = Some [3; 1; 2]%Z
  /\ last [[3; 1; 2]; [1; 3; 2]; [1; 2; 3]]%Z [] = [1; 2; 3]%Z
  /\ forall k a b,
       nth_error [[3; 1; 2]; [1; 3; 2]; [1; 2; 3]]%Z k = Some a ->
       nth_error [[3; 1; 2]; [1; 3; 2]; [1; 2; 3]]%Z (S k) = Some b ->
       adjacent a b /\ a <> b.
Proof.
  apply (path_well_formed BreadthFirst [3; 1; 2]%Z 20
           [[3; 1; 2]; [1; 3; 2]; [3; 2; 1]; [1; 2; 3]]%Z).
  vm_compute; reflexivity.
Defined.

(** C5. The visited log returned by each of the five strategies lists no
    state identity twice. *)
Theorem visited_log_no_duplicates (st : strategy) (init : state) (fuel : nat)
  (V : list ident) (p : path) :
  run st (new_search init) fuel = Some (Found V p) -> NoDup V.
Proof. intros Hrun. apply run_sound in Hrun as (H & _). exact H. Qed.

Lemma visited_log_no_duplicates_witness :
  NoDup [[3; 1; 2]; [3; 2; 1]; [2; 3; 1]; [2; 1; 3]; [1; 2; 3]]%Z.
Proof.
  apply (visited_log_no_duplicates DepthFirst [3; 1; 2]%Z 20 _
           [[3; 1; 2]; [3; 2; 1]; [2; 3; 1]; [2; 1; 3]; [1; 2; 3]]%Z).
  vm_compute; reflexivity.
Defined.

(** C10. Every state identity of the path of a successful result of the five
    strategies is in the visited log of that result, so that each lookup of
    [print_final_path] finds the index of the entry it prints. *)
Theorem path_inside_visited_log (st : strategy) (init : state) (fuel : nat)
  (V : list ident) (p : path) :
  run st (new_search init) fuel = Some (Found V p) ->
  incl p V
  /\ exists lines,
       print_final_path V p = Some lines
       /\ map snd lines = p
       /\ forall i s, In (i, s) lines -> nth_error V i = Some s.
Proof.
  intros Hrun. apply run_sound in Hrun as (_ & _ & _ & Hincl).
  split; [assumption | apply print_final_path_succeeds; assumption].
Qed.

Lemma path_inside_visited_log_witness :
  incl [[3; 1; 2]; [1; 3; 2]; [1; 2; 3]]%Z
       [[3; 1; 2]; [1; 3; 2]; [3; 2; 1]; [1; 2; 3]]%Z
  /\ exists lines,
       print_final_path [[3; 1; 2]; [1; 3; 2]; [3; 2; 1]; [1; 2; 3]]%Z
         [[3; 1; 2]; [1; 3; 2]; [1; 2; 3]]%Z = Some lines
       /\ map snd lines = [[3; 1; 2]; [1; 3; 2]; [1; 2; 3]]%Z
       /\ forall i s, In (i, s) lines ->
            nth_error [[3; 1; 2]; [1; 3; 2]; [3; 2; 1]; [1; 2; 3]]%Z i = Some s.
Proof.
  apply (path_inside_visited_log UniformCost [3; 1; 2]%Z 20).
  vm_compute; reflexivity.
Defined.

Lemma swap_adjacent_fixed (s : state) (i : nat) :
  i + 1 < length s ->
  swap_adjacent i s = s <-> item s i = item s (i + 1).
Proof.
  intros Hi. destruct (split_at_pair s i Hi) as (a & x & y & b & -> & <-).
  rewrite swap_adjacent_app. unfold item.
  rewrite !app_nth2 by lia.
  rewrite Nat.sub_diag. replace (length a + 1 - length a) with 1 by lia. simpl.
  split.
  - intros H. apply app_inv_head in H. injection H as H _. symmetry; exact H.
  - intros ->. reflexivity.
Qed.

(** C7, as the code has it.  The i-th successor of a state of the stored
    length equals that state exactly when the values at positions i and i+1
    are equal; hence a state in which neighbouring values always differ (any
    state without a repeated value) has no successor equal to itself. *)
Theorem successor_equal_iff_equal_neighbours (self : Search) (s : state) :
  length s = state_length self ->
  (forall i, i < state_length self - 1 ->
     exists t, nth_error (successors self s) i = Some t
               /\ (t = s <-> item s i = item s (i + 1)))
  /\ ((forall i, i + 1 < length s -> item s i <> item s (i + 1)) ->
      forall t, In t (successors self s) -> t <> s).
Proof.
  intros Hlen. split.
  - intros i Hi. exists (swap_adjacent i s). split.
    + apply successors_nth_error, Hi.
    + apply swap_adjacent_fixed. lia.
  - intros Hdiff t Ht Heq.
    apply (successors_adjacent self s t Hlen) in Ht as (i & Hi & ->).
    apply (Hdiff i Hi). apply swap_adjacent_fixed; assumption.
Qed.

Lemma successor_equal_iff_equal_neighbours_witness :
  length [3; 1; 2]%Z = state_length (new_search [3; 1; 2]%Z)
  /\ (forall i, i + 1 < length [3; 1; 2]%Z ->
        item [3; 1; 2]%Z i <> item [3; 1; 2]%Z (i + 1))
  /\ forall t, In t (successors (new_search [3; 1; 2]%Z) [3; 1; 2]%Z) ->
               t <> [3; 1; 2]%Z.
Proof.
  assert (Hdiff : forall i, i + 1 < length [3; 1; 2]%Z ->
                    item [3; 1; 2]%Z i <> item [3; 1; 2]%Z (i + 1)).
  { intros i Hi. simpl in Hi.
    destruct i as [|[|i]]; [discriminate | discriminate | lia]. }
  split; [reflexivity |]. split; [exact Hdiff |].
  exact (proj2 (successor_equal_iff_equal_neighbours
                  (new_search [3; 1; 2]%Z) [3; 1; 2]%Z eq_refl) Hdiff).
Defined.

(** C7, as stated, fails on the state [1, 1, 2]: its first successor swaps
    the two equal values and is the state itself. *)
Lemma successor_equals_state_112 :
  ~ (forall t, In t (successors (new_search [1; 1; 2]%Z) [1; 1; 2]%Z) ->
               t <> [1; 1; 2]%Z).
Proof.
  intros H. apply (H [1; 1; 2]%Z); [left |]; reflexivity.
Qed.

Lemma min_from_first (key : state -> nat) (l : list state) :
  forall best,
    (min_from key best l = best /\ forall t, In t l -> key best <= key t)
    \/ (key (min_from key best l) < key best
        /\ first_least key (min_from key best l) l).
Proof.
  induction l as [|x l IH]; intros best; simpl.
  - left. split; [reflexivity | intros t []].
  - destruct (IH (if key x <? key best then x else best))
      as [[Hm Hall]|[Hlt (i & Hi & Hall & Hbefore)]].
    + rewrite Hm. destruct (Nat.ltb_spec (key x) (key best)) as [Hx|Hx].
      * right. split; [exact Hx |]. exists 0. split; [reflexivity |]. split.
        -- intros t [<-|Ht]; [lia | apply Hall, Ht].
        -- intros j t Hj; lia.
      * left. split; [reflexivity |].
        intros t [<-|Ht]; [exact Hx | apply Hall, Ht].
    + assert (Hb : key (min_from key (if key x <? key best then x else best) l)
                   < key best
                   /\ key (min_from key (if key x <? key best then x else best) l)
                      < key x).
      { destruct (Nat.ltb_spec (key x) (key best)); lia. }
      destruct Hb as [Hb1 Hb2]. right. split; [exact Hb1 |].
      exists (S i). split; [exact Hi |]. split.
      * intros t [<-|Ht]; [lia | apply Hall, Ht].
      * intros [|j] t Hj Ht; simpl in Ht.
        -- injection Ht as <-. exact Hb2.
        -- apply (Hbefore j t); [lia | exact Ht].
Qed.

Lemma py_min_first (key : state -> nat) (l : list state) (b : state) :
  py_min key l = Some b -> first_least key b l.
Proof.
  destruct l as [|x l]; simpl; [discriminate |].
  intros H; injection H as <-.
  destruct (min_from_first key l x) as [[Hm Hall]|[Hlt (i & Hi & Hall & Hbefore)]].
  - rewrite Hm. exists 0. split; [reflexivity |]. split.
    + intros t [<-|Ht]; [lia | apply Hall, Ht].
    + intros j t Hj; lia.
  - exists (S i). split; [exact Hi |]. split.
    + intros t [<-|Ht]; [lia | apply Hall, Ht].
    + intros [|j] t Hj Ht; simpl in Ht.
      * injection Ht as <-. exact Hlt.
      * apply (Hbefore j t); [lia | exact Ht].
Qed.

(** The three ways through one pass of the loop. *)
Lemma hill_climbing_iteration_cases (self : Search) (cur : state) (n : nat) :
  length cur = state_length self ->
  (inversion_heuristic cur = 0
   /\ hill_climbing_iteration self cur n = Stop (Returned cur n))
  \/ (inversion_heuristic cur <> 0
      /\ (forall t, In t (successors self cur) ->
                    inversion_heuristic cur <= inversion_heuristic t)
      /\ hill_climbing_iteration self cur n
         = Stop (Returned cur (n + length (successors self cur))))
  \/ (exists best,
        inversion_heuristic cur <> 0
        /\ first_least inversion_heuristic best (successors self cur)
        /\ inversion_heuristic best < inversion_heuristic cur
        /\ hill_climbing_iteration self cur n
           = Move best (n + length (successors self cur))).
Proof.
  intros Hlen. unfold hill_climbing_iteration.
  destruct (Nat.eqb_spec (inversion_heuristic cur) 0) as [Hz|Hnz].
  - left. split; [exact Hz | reflexivity].
  - right.
    destruct (py_min inversion_heuristic (successors self cur)) as [best|] eqn:Hmin.
    + pose proof (py_min_first _ _ _ Hmin) as Hfirst.
      destruct (Nat.leb_spec (inversion_heuristic cur) (inversion_heuristic best))
        as [Hle|Hlt].
      * left. split; [exact Hnz |]. split; [| reflexivity].
        intros t Ht. destruct Hfirst as (_ & _ & Hall & _).
        specialize (Hall t Ht). lia.
      * right. exists best. split; [exact Hnz |]. split; [exact Hfirst |].
        split; [exact Hlt | reflexivity].
    + exfalso. apply inversion_needs_two in Hnz.
      pose proof (successors_count self cur) as Hc.
      destruct (successors self cur); [simpl in Hc; lia | discriminate].
Qed.

(** Whatever the loop returns is the end of the run of steepest descent. *)
Lemma hill_climbing_loop_descends (self : Search) (fuel : nat) :
  forall cur n r,
    length cur = state_length self ->
    hill_climbing_loop self fuel cur n = Some r ->
    exists s m, r = Returned s m /\ steepest_descent self cur n s m.
Proof.
  induction fuel as [|fuel IH]; intros cur n r Hlen Hrun; simpl in Hrun.
  - discriminate.
  - destruct (hill_climbing_iteration_cases self cur n Hlen)
      as [(Hz & Hit)|[(Hnz & Hall & Hit)|(best & Hnz & Hfirst & Hlt & Hit)]];
      rewrite Hit in Hrun.
    + injection Hrun as <-. exists cur, n. split; [reflexivity |].
      apply sd_zero, Hz.
    + injection Hrun as <-. exists cur, (n + length (successors self cur)).
      split; [reflexivity |]. apply sd_no_better; assumption.
    + assert (Hin : In best (successors self cur)).
      { destruct Hfirst as (i & Hi & _). eapply nth_error_In, Hi. }
      destruct (IH best (n + length (successors self cur)) r) as (s & m & -> & Hsd).
      * rewrite (successors_length self cur best Hin). exact Hlen.
      * exact Hrun.
      * exists s, m. split; [reflexivity |].
        apply sd_move with best; assumption.
Qed.

Lemma first_least_unique (key : state -> nat) (l : list state) (b b' : state) :
  first_least key b l -> first_least key b' l -> b = b'.
Proof.
  intros (i & Hi & Hall & Hbefore) (i' & Hi' & Hall' & Hbefore').
  destruct (Nat.lt_trichotomy i i') as [Hlt|[Heq|Hgt]].
  - pose proof (Hbefore' i b Hlt Hi).
    pose proof (Hall b' (nth_error_In _ _ Hi')). lia.
  - subst i'. congruence.
  - pose proof (Hbefore i' b' Hgt Hi').
    pose proof (Hall' b (nth_error_In _ _ Hi)). lia.
Qed.

(** The run of steepest descent has one end only. *)
Lemma steepest_descent_unique (self : Search) (cur : state) (n : nat)
  (s : state) (m : nat) :
  steepest_descent self cur n s m ->
  forall s' m', steepest_descent self cur n s' m' -> s' = s /\ m' = m.
Proof.
  intros H; induction H as [cur n Hz|cur n Hnz Hall|cur n best s m Hnz Hf Hlt _ IH];
    intros s' m' H'; inversion H' as [? ? Hz'|? ? Hnz' Hall'|? ? best' ? ? Hnz' Hf' Hlt' Hsd'];
    subst; try (split; reflexivity); try contradiction.
  - destruct Hf' as (i & Hi & _). specialize (Hall _ (nth_error_In _ _ Hi)). lia.
  - destruct Hf as (i & Hi & _). specialize (Hall' _ (nth_error_In _ _ Hi)). lia.
  - rewrite <- (first_least_unique _ _ _ _ Hf Hf') in Hsd'. apply IH, Hsd'.
Qed.

(** On [2, 1] the run moves to [1, 2] and ends there with one state examined;
    it does not end at [2, 1]. *)
Example steepest_descent_21 :
  steepest_descent (new_search [2; 1]%Z) [2; 1]%Z 0 [1; 2]%Z 1
  /\ ~ steepest_descent (new_search [2; 1]%Z) [2; 1]%Z 0 [2; 1]%Z 0.
Proof.
  assert (H : steepest_descent (new_search [2; 1]%Z) [2; 1]%Z 0 [1; 2]%Z 1).
  { destruct (hill_climbing_loop_descends (new_search [2; 1]%Z) 2 [2; 1]%Z 0
                (Returned [1; 2]%Z 1) eq_refl eq_refl) as (s & m & Heq & Hsd).
    injection Heq as <- <-. exact Hsd. }
  split; [exact H |]. intros H'.
  destruct (steepest_descent_unique _ _ _ _ _ H _ _ H') as [Heq _]. discriminate.
Qed.

(** C6. Hill climbing returns from every initial sequence, and what it
    returns is the end of the run of steepest descent from the initial state
    with zero states examined: the search stays at a state exactly when its
    inversion count is zero or no neighbour has a smaller one, and returns it
    there with the count of states examined; otherwise it counts the
    neighbours and moves to the first neighbour of least inversion count,
    which is strictly smaller than the current one.  The same is said of each
    pass of the loop on a state of the stored length, and [min] is never
    applied to an empty list. *)
Theorem hill_climbing_terminates (init : state) :
  (exists fuel s n,
      (forall k, hill_climbing_search (new_search init) (fuel + k)
                 = Some (Returned s n))
      /\ steepest_descent (new_search init) init 0 s n)
  /\ (forall fuel r,
        hill_climbing_search (new_search init) fuel = Some r ->
        exists s n, r = Returned s n
                    /\ steepest_descent (new_search init) init 0 s n)
  /\ (forall cur n, length cur = length init ->
        iteration_spec (new_search init) cur n
          (hill_climbing_iteration (new_search init) cur n))
  /\ (forall cur n, length cur = length init ->
        (inversion_heuristic cur = 0
         \/ forall t, In t (successors (new_search init) cur) ->
                      inversion_heuristic cur <= inversion_heuristic t) ->
        exists n', hill_climbing_iteration (new_search init) cur n
                   = Stop (Returned cur n')).
Proof.
  split; [| split; [| split]].
  - destruct (hill_climbing_loop_returns (new_search init)
                (S (inversion_heuristic init)) init 0) as (s & n & Hrun);
      [reflexivity | lia |].
    exists (S (inversion_heuristic init)), s, n. split.
    + intros k. apply hill_climbing_loop_mono, Hrun.
    + destruct (hill_climbing_loop_descends (new_search init) _ init 0 _
                  eq_refl Hrun) as (s' & n' & Heq & Hsd).
      injection Heq as <- <-. exact Hsd.
  - intros fuel r Hrun.
    apply (hill_climbing_loop_descends (new_search init) fuel init 0 r eq_refl Hrun).
  - intros cur n Hlen. apply hill_climbing_iteration_spec. exact Hlen.
  - intros cur n Hlen Hstop.
    pose proof (hill_climbing_iteration_spec (new_search init) cur n Hlen) as Hspec.
    destruct (hill_climbing_iteration (new_search init) cur n) as [[s m|]|best n'];
      simpl in Hspec.
    + destruct Hspec as (-> & _). exists m; reflexivity.
    + contradiction.
    + destruct Hspec as (Hin & Hlt & _). exfalso.
      destruct Hstop as [Hz|Hall]; [lia |]. specialize (Hall best Hin). lia.
Qed.

(** C9. On a sorted initial sequence hill climbing returns in its first pass
    the unchanged state, which has no inversion, with zero states examined;
    on [2, 1] the first pass moves to [1, 2] and the second returns it. *)
Theorem hill_climbing_sorted_and_single_inversion (init : state) :
  Sorted Z.le init ->
  inversion_heuristic init = 0
  /\ (forall fuel, hill_climbing_search (new_search init) (S fuel)
                   = Some (Returned init 0))
  /\ hill_climbing_iteration (new_search [2; 1]%Z) [2; 1]%Z 0 = Move [1; 2]%Z 1
  /\ hill_climbing_search (new_search [2; 1]%Z) 2 = Some (Returned [1; 2]%Z 1).
Proof.
  intros Hs. pose proof (sorted_no_inversion init Hs) as Hz.
  split; [exact Hz |]. split; [| split; reflexivity].
  intros fuel. unfold hill_climbing_search. simpl.
  unfold hill_climbing_iteration. rewrite Hz. reflexivity.
Qed.

Lemma hill_climbing_sorted_and_single_inversion_witness :
  Sorted Z.le [1; 2; 2; 5]%Z
  /\ hill_climbing_search (new_search [1; 2; 2; 5]%Z) 1
     = Some (Returned [1; 2; 2; 5]%Z 0).
Proof.
  assert (Hs : Sorted Z.le [1; 2; 2; 5]%Z).
  { repeat constructor; discriminate. }
  split; [exact Hs |].
  exact (proj1 (proj2 (hill_climbing_sorted_and_single_inversion _ Hs)) 0).
Defined.

(** C8. For an initial sequence of length 0 or 1 the goal is the initial
    state, no successor is generated, each of the five strategies returns in
    its first pass the log and the path made of the initial state alone, and
    hill climbing returns the initial state with zero states examined. *)
Theorem trivial_sequences (init : state) :
  length init <= 1 ->
  goal_state (new_search init) = init
  /\ successors (new_search init) init = []
  /\ (forall st fuel,
        run st (new_search init) (S fuel)
        = Some (Found [tuple init] [tuple init]))
  /\ (forall fuel, hill_climbing_search (new_search init) (S fuel)
                   = Some (Returned init 0)).
Proof.
  intros Hlen.
  assert (Hgoal : goal_state (new_search init) = init).
  { destruct init as [|x [|y r]]; simpl in *; [reflexivity | reflexivity | lia]. }
  split; [exact Hgoal |]. split; [| split].
  - destruct init as [|x [|y r]]; simpl in *; [reflexivity | reflexivity | lia].
  - intros st fuel. rewrite run_ops_of. unfold run_ops.
    assert (Hstep : forall o : frontier_ops,
               f_pop o [f_first o] = Some (f_first o, []) ->
               f_state o (f_first o) = init ->
               f_path o (f_first o) = [tuple init] ->
               search_loop (new_search init) (f_state o) (f_path o) (f_make o)
                 (f_pop o) (f_push o) (S fuel) [f_first o] []
               = Some (Found [tuple init] [tuple init])).
    { intros o Hpop Hst Hpath. simpl. rewrite Hpop, Hst, Hpath.
      destruct (visited_dec (tuple init) []) as [[]|_].
      destruct (state_eq_dec init (sorted init)) as [_|Hne]; [reflexivity |].
      exfalso. apply Hne. symmetry. exact Hgoal. }
    apply Hstep; destruct st; reflexivity.
  - intros fuel. unfold hill_climbing_search. simpl.
    unfold hill_climbing_iteration.
    destruct init as [|x [|y r]]; simpl in *; [reflexivity | reflexivity | lia].
Qed.

Lemma trivial_sequences_witness :
  length [5]%Z <= 1
  /\ goal_state (new_search [5]%Z) = [5]%Z
  /\ successors (new_search [5]%Z) [5]%Z = []
  /\ (forall st fuel,
        run st (new_search [5]%Z) (S fuel) = Some (Found [[5]%Z] [[5]%Z]))
  /\ (forall fuel, hill_climbing_search (new_search [5]%Z) (S fuel)
                   = Some (Returned [5]%Z 0)).
Proof.
  split; [simpl; lia |].
  apply (trivial_sequences [5]%Z). simpl; lia.
Defined.

(** * Further properties of the engine *)

(** ** Inversions and adjacent swaps *)

Lemma inversion_cons_count (x : Z) (r : state) :
  inversion_heuristic (x :: r) = count_below x r + inversion_heuristic r.
Proof. apply inversion_heuristic_cons. Qed.

Lemma count_below_cons (x y : Z) (r : list Z) :
  count_below x (y :: r) = gt_bit x y + count_below x r.
Proof.
  unfold count_below, gt_bit. simpl. destruct (x >? y)%Z; reflexivity.
Qed.

Lemma count_below_app (x : Z) (a b : list Z) :
  count_below x (a ++ b) = count_below x a + count_below x b.
Proof. unfold count_below. rewrite filter_app, length_app. reflexivity. Qed.

Lemma count_below_zero (x : Z) (r : list Z) :
  count_below x r = 0 <-> Forall (fun y => (x <= y)%Z) r.
Proof.
  induction r as [|y r IH].
  - split; [constructor | reflexivity].
  - rewrite count_below_cons. unfold gt_bit. split.
    + intros H. destruct (Z.gtb_spec x y); [lia |].
      constructor; [lia | apply IH; lia].
    + intros H. inversion H as [|? ? Hy Hr]; subst.
      destruct (Z.gtb_spec x y); [lia |]. apply IH in Hr. lia.
Qed.

Lemma no_inversion_sorted (s : state) :
  inversion_heuristic s = 0 -> Sorted Z.le s.
Proof.
  induction s as [|x r IH]; intros H; [constructor |].
  rewrite inversion_cons_count in H.
  assert (Hc : count_below x r = 0) by lia.
  constructor; [apply IH; lia |].
  apply count_below_zero in Hc. destruct Hc; constructor; assumption.
Qed.

(** Exchanging two neighbours changes the count by the inversion they make. *)
Lemma inversion_swap (a : list Z) (x y : Z) (b : list Z) :
  inversion_heuristic (a ++ y :: x :: b) + gt_bit x y
  = inversion_heuristic (a ++ x :: y :: b) + gt_bit y x.
Proof.
  induction a as [|z a IH]; simpl app.
  - rewrite !inversion_cons_count, !count_below_cons. lia.
  - rewrite !inversion_cons_count, !count_below_app, !count_below_cons. lia.
Qed.

Lemma swap_adjacent_inversions (s : state) (i : nat) :
  i + 1 < length s ->
  inversion_heuristic (swap_adjacent i s) + gt_bit (item s i) (item s (i + 1))
  = inversion_heuristic s + gt_bit (item s (i + 1)) (item s i).
Proof.
  intros Hi. destruct (split_at_pair s i Hi) as (a & x & y & b & -> & <-).
  rewrite swap_adjacent_app. unfold item.
  rewrite !app_nth2 by lia.
  rewrite Nat.sub_diag. replace (length a + 1 - length a) with 1 by lia. simpl nth.
  apply inversion_swap.
Qed.

(** A state with an inversion has two neighbours in the wrong order. *)
Lemma descent_exists (s : state) :
  inversion_heuristic s <> 0 ->
  exists i, i + 1 < length s /\ (item s i > item s (i + 1))%Z.
Proof.
  induction s as [|x r IH]; intros H; [exfalso; apply H; reflexivity |].
  destruct r as [|y r']; [exfalso; apply H; reflexivity |].
  destruct (Z.gtb_spec x y) as [Hxy|Hxy].
  - exists 0. split; [simpl; lia | unfold item; simpl; lia].
  - destruct (Nat.eq_dec (inversion_heuristic (y :: r')) 0) as [Hz|Hnz].
    + exfalso. apply H. rewrite inversion_cons_count, Hz.
      pose proof (no_inversion_sorted _ Hz) as Hs.
      apply Sorted_StronglySorted in Hs; [| intros u v w; apply Z.le_trans].
      inversion Hs as [|? ? _ Hall]; subst.
      assert (Hc : count_below x (y :: r') = 0).
      { apply count_below_zero. constructor; [assumption |].
        eapply Forall_impl; [| exact Hall]. simpl. intros; lia. }
      lia.
    + destruct (IH Hnz) as (i & Hi & Hgt).
      exists (S i). split; [simpl in *; lia | exact Hgt].
Qed.

Lemma gt_bit_le_1 (x y : Z) : gt_bit x y <= 1.
Proof. unfold gt_bit. destruct (x >? y)%Z; lia. Qed.

Lemma neighbour_inversions (self : Search) (s t : state) :
  length s = state_length self -> In t (successors self s) ->
  inversion_heuristic s <= inversion_heuristic t + 1
  /\ inversion_heuristic t <= inversion_heuristic s + 1.
Proof.
  intros Hlen Ht. apply (successors_adjacent self s t Hlen) in Ht as (i & Hi & ->).
  pose proof (swap_adjacent_inversions s i Hi) as H.
  pose proof (gt_bit_le_1 (item s i) (item s (i + 1))).
  pose proof (gt_bit_le_1 (item s (i + 1)) (item s i)).
  lia.
Qed.

Lemma descent_neighbour (self : Search) (s : state) :
  length s = state_length self -> inversion_heuristic s <> 0 ->
  exists t, In t (successors self s)
            /\ inversion_heuristic t + 1 = inversion_heuristic s.
Proof.
  intros Hlen Hnz. destruct (descent_exists s Hnz) as (i & Hi & Hgt).
  exists (swap_adjacent i s). split.
  - apply (successors_adjacent self s _ Hlen). exists i; split; [assumption | reflexivity].
  - pose proof (swap_adjacent_inversions s i Hi) as H. unfold gt_bit in H.
    destruct (Z.gtb_spec (item s i) (item s (i + 1))); [| lia].
    destruct (Z.gtb_spec (item s (i + 1)) (item s i)); lia.
Qed.

(** ** The sorted rearrangement is unique *)

Lemma insert_sorted_comm (x y : Z) (l : list Z) :
  insert_sorted x (insert_sorted y l) = insert_sorted y (insert_sorted x l).
Proof.
  induction l as [|z l IH]; simpl.
  - destruct (Z.leb_spec x y), (Z.leb_spec y x); try reflexivity; try lia.
    replace y with x by lia. reflexivity.
  - destruct (Z.leb_spec y z), (Z.leb_spec x z); simpl;
      repeat match goal with
             | |- context [(?a <=? ?b)%Z] => destruct (Z.leb_spec a b)
             end; try reflexivity; try lia.
    + replace y with x by lia. reflexivity.
    + rewrite IH. reflexivity.
Qed.

Lemma sorted_perm_eq (l l' : list Z) : Permutation l l' -> sorted l = sorted l'.
Proof.
  intros H; induction H as [|x l l' _ IH|x y l|l l' l'' _ IH1 _ IH2]; simpl.
  - reflexivity.
  - rewrite IH. reflexivity.
  - apply insert_sorted_comm.
  - congruence.
Qed.

Lemma sorted_unique (s init : state) :
  Sorted Z.le s -> Permutation s init -> s = sorted init.
Proof.
  intros Hs Hp. rewrite <- (sorted_perm_eq _ _ Hp). symmetry.
  apply sorted_fixpoint, Hs.
Qed.

(** ** Hill climbing sorts *)

Lemma hill_climbing_iteration_moves (self : Search) (cur : state) (n h : nat) :
  length cur = state_length self -> inversion_heuristic cur = S h ->
  exists best,
    hill_climbing_iteration self cur n = Move best (n + (state_length self - 1))
    /\ inversion_heuristic best = h /\ In best (successors self cur).
Proof.
  intros Hlen Hh.
  pose proof (hill_climbing_iteration_spec self cur n Hlen) as Hspec.
  destruct (descent_neighbour self cur Hlen) as (t & Ht & Hinv); [lia |].
  destruct (hill_climbing_iteration self cur n) as [[s m|]|best n']; simpl in Hspec.
  - exfalso. destruct Hspec as (_ & [(Hz & _)|(_ & Hall & _)]); [lia |].
    specialize (Hall t Ht). lia.
  - contradiction.
  - destruct Hspec as (Hin & Hlt & Hleast & ->). exists best.
    split; [reflexivity |]. split; [| assumption].
    pose proof (neighbour_inversions self cur best Hlen Hin). lia.
Qed.

Lemma hill_climbing_loop_exact (self : Search) (h : nat) :
  forall cur n k,
    length cur = state_length self -> inversion_heuristic cur = h ->
    exists s',
      hill_climbing_loop self (S h + k) cur n
      = Some (Returned s' (n + h * (state_length self - 1)))
      /\ inversion_heuristic s' = 0 /\ Permutation s' cur.
Proof.
  induction h as [|h IH]; intros cur n k Hlen Hh.
  - exists cur. simpl. unfold hill_climbing_iteration. rewrite Hh. simpl.
    split; [f_equal; f_equal; lia |]. split; [reflexivity | apply Permutation_refl].
  - destruct (hill_climbing_iteration_moves self cur n h Hlen Hh)
      as (best & Hit & Hbest & Hin).
    destruct (IH best (n + (state_length self - 1)) k) as (s' & Hrun & Hz & Hp).
    + rewrite (successors_length self cur best Hin). assumption.
    + assumption.
    + exists s'. split; [| split; [assumption |]].
      * change (S (S h) + k) with (S (S h + k)).
        simpl hill_climbing_loop. rewrite Hit.
        simpl in Hrun. rewrite Hrun. f_equal. f_equal. lia.
      * eapply perm_trans; [exact Hp |]. apply (successors_perm self), Hin.
Qed.

(** ** Paths and inversions *)

Lemma valid_path_inversions (self : Search) (p : path) (t : state) :
  state_length self = length (initial_state self) ->
  valid_path self p t ->
  inversion_heuristic (initial_state self) + 1
  <= inversion_heuristic t + length p.
Proof.
  intros HN Hv; induction Hv as [|p u t Hv IH Ht].
  - simpl; lia.
  - rewrite length_app; simpl.
    assert (Hlen : length u = state_length self).
    { rewrite HN. apply Permutation_length, (valid_path_perm self p), Hv. }
    pose proof (neighbour_inversions self u t Hlen Ht). lia.
Qed.

Lemma sorting_path (self : Search) (h : nat) :
  state_length self = length (initial_state self) ->
  forall s p,
    valid_path self p s -> inversion_heuristic s = h ->
    exists q, valid_path self q (sorted (initial_state self))
              /\ length q = length p + h.
Proof.
  intros HN; induction h as [|h IH]; intros s p Hv Hh.
  - exists p. split; [| lia].
    replace (sorted (initial_state self)) with s; [assumption |].
    apply sorted_unique; [apply no_inversion_sorted, Hh |].
    apply (valid_path_perm self p), Hv.
  - assert (Hlen : length s = state_length self).
    { rewrite HN. apply Permutation_length, (valid_path_perm self p), Hv. }
    destruct (descent_neighbour self s Hlen) as (t & Ht & Hinv); [lia |].
    destruct (IH t (p ++ [tuple t])) as (q & Hq & Hlq).
    + apply vp_step with s; assumption.
    + lia.
    + exists q. split; [assumption |]. rewrite Hlq, length_app. simpl; lia.
Qed.

(** X1. The inversion count of a sequence is zero exactly when the sequence
    is in ascending order. *)
Theorem inversion_zero_iff_sorted (s : state) :
  inversion_heuristic s = 0 <-> Sorted Z.le s.
Proof. split; [apply no_inversion_sorted | apply sorted_no_inversion]. Qed.

(** X2. On a state of the stored length, the i-th successor has one inversion
    less than the state when the value at i is greater than the value at i+1,
    one more when it is smaller, and as many when the two are equal. *)
Theorem successor_inversion_count (self : Search) (s : state) (i : nat) :
  length s = state_length self -> i < state_length self - 1 ->
  exists t,
    nth_error (successors self s) i = Some t
    /\ ((item s i > item s (i + 1))%Z ->
        inversion_heuristic t + 1 = inversion_heuristic s)
    /\ ((item s i < item s (i + 1))%Z ->
        inversion_heuristic t = inversion_heuristic s + 1)
    /\ (item s i = item s (i + 1) ->
        inversion_heuristic t = inversion_heuristic s).
Proof.
  intros Hlen Hi. exists (swap_adjacent i s).
  split; [apply successors_nth_error, Hi |].
  assert (Hi' : i + 1 < length s) by lia.
  pose proof (swap_adjacent_inversions s i Hi') as H. unfold gt_bit in H.
  destruct (Z.gtb_spec (item s i) (item s (i + 1)));
    destruct (Z.gtb_spec (item s (i + 1)) (item s i));
    repeat split; intros; lia.
Qed.

Lemma successor_inversion_count_witness :
  length [3; 1; 2]%Z = state_length (new_search [3; 1; 2]%Z)
  /\ 0 < state_length (new_search [3; 1; 2]%Z) - 1
  /\ exists t,
       nth_error (successors (new_search [3; 1; 2]%Z) [3; 1; 2]%Z) 0 = Some t
       /\ ((item [3; 1; 2]%Z 0 > item [3; 1; 2]%Z (0 + 1))%Z ->
           inversion_heuristic t + 1 = inversion_heuristic [3; 1; 2]%Z)
       /\ ((item [3; 1; 2]%Z 0 < item [3; 1; 2]%Z (0 + 1))%Z ->
           inversion_heuristic t = inversion_heuristic [3; 1; 2]%Z + 1)
       /\ (item [3; 1; 2]%Z 0 = item [3; 1; 2]%Z (0 + 1) ->
           inversion_heuristic t = inversion_heuristic [3; 1; 2]%Z).
Proof.
  split; [reflexivity |]. split; [simpl; lia |].
  apply (successor_inversion_count (new_search [3; 1; 2]%Z) [3; 1; 2]%Z 0);
    [reflexivity | simpl; lia].
Defined.

(** X3. From every initial sequence hill climbing returns the ascending sort
    of the sequence, after as many moves as the sequence has inversions: the
    count of states examined is that number times the number of neighbours
    of a state. *)
Theorem hill_climbing_sorts (init : state) (k : nat) :
  hill_climbing_search (new_search init) (S (inversion_heuristic init) + k)
  = Some (Returned (sorted init) (inversion_heuristic init * (length init - 1))).
Proof.
  unfold hill_climbing_search.
  destruct (hill_climbing_loop_exact (new_search init) (inversion_heuristic init)
              init 0 k eq_refl eq_refl) as (s' & Hrun & Hz & Hp).
  simpl initial_state. rewrite Hrun. simpl state_length.
  rewrite (sorted_unique s' init); [reflexivity | | assumption].
  apply no_inversion_sorted, Hz.
Qed.

(** X4. The path returned by breadth-first search has exactly as many
    transitions as the initial sequence has inversions. *)
Theorem breadth_first_transitions (init : state) (fuel : nat)
  (V : list ident) (p : path) :
  breadth_first_search (new_search init) fuel = Some (Found V p) ->
  length p = inversion_heuristic init + 1.
Proof.
  intros Hbfs.
  destruct (sorting_path (new_search init) (inversion_heuristic init) eq_refl
              init [tuple init] (vp_init (new_search init)) eq_refl)
    as (q & Hq & Hlq).
  pose proof (bfs_loop_shortest (new_search init) fuel 1
                [(init, [tuple init])] [] [] V p
                (layered_start (new_search init)) Hbfs q Hq) as Hle.
  assert (Hv : valid_path (new_search init) p (goal_state (new_search init))).
  { apply (run_sound BreadthFirst (new_search init) fuel V p Hbfs). }
  pose proof (valid_path_inversions (new_search init) p _ eq_refl Hv) as Hge.
  change (goal_state (new_search init)) with (sorted init) in Hge.
  rewrite (sorted_no_inversion _ (sorted_Sorted init)) in Hge.
  simpl in Hlq, Hge. lia.
Qed.

Lemma breadth_first_transitions_witness :
  length [[3; 1; 2]; [1; 3; 2]; [1; 2; 3]]%Z
  = inversion_heuristic [3; 1; 2]%Z + 1.
Proof.
  apply (breadth_first_transitions [3; 1; 2]%Z 20
           [[3; 1; 2]; [1; 3; 2]; [3; 2; 1]; [1; 2; 3]]%Z).
  vm_compute; reflexivity.
Defined.

(** X5. The path returned by any of the five strategies has at least as many
    transitions as the initial sequence has inversions. *)
Theorem path_transitions_lower_bound (st : strategy) (init : state) (fuel : nat)
  (V : list ident) (p : path) :
  run st (new_search init) fuel = Some (Found V p) ->
  inversion_heuristic init <= length p - 1.
Proof.
  intros Hrun. apply run_sound in Hrun as (_ & Hv & _).
  pose proof (valid_path_inversions (new_search init) p _ eq_refl Hv) as Hge.
  change (goal_state (new_search init)) with (sorted init) in Hge.
  rewrite (sorted_no_inversion _ (sorted_Sorted init)) in Hge.
  simpl in Hge. lia.
Qed.

Lemma path_transitions_lower_bound_witness :
  inversion_heuristic [3; 1; 2]%Z
  <= length [[3; 1; 2]; [3; 2; 1]; [2; 3; 1]; [2; 1; 3]; [1; 2; 3]]%Z - 1.
Proof.
  apply (path_transitions_lower_bound DepthFirst [3; 1; 2]%Z 20
           [[3; 1; 2]; [3; 2; 1]; [2; 3; 1]; [2; 1; 3]; [1; 2; 3]]%Z).
  vm_compute; reflexivity.
Defined.

(** ** The successor relation *)

Lemma swap_adjacent_out_of_range (i : nat) :
  forall s, length s <= i + 1 -> swap_adjacent i s = s.
Proof.
  induction i as [|i IH]; intros s Hlen.
  - destruct s as [|x [|y r]]; simpl in Hlen; [reflexivity | reflexivity | lia].
  - destruct s as [|x r].
    + unfold swap_adjacent, slice. rewrite !skipn_nil, !firstn_nil. reflexivity.
    + rewrite swap_adjacent_cons, IH; [reflexivity | simpl in Hlen; lia].
Qed.

Lemma swap_adjacent_involutive (i : nat) (s : state) :
  swap_adjacent i (swap_adjacent i s) = s.
Proof.
  destruct (Nat.lt_ge_cases (i + 1) (length s)) as [Hi|Hi].
  - destruct (split_at_pair s i Hi) as (a & x & y & b & -> & <-).
    rewrite !swap_adjacent_app. reflexivity.
  - rewrite !swap_adjacent_out_of_range; [reflexivity | lia |].
    rewrite swap_adjacent_out_of_range; lia.
Qed.

(** X6. Applying the same swap to a successor gives the state back: the
    i-th successor of the i-th successor of a state is the state, so every
    state is a successor of each of its successors. *)
Theorem successors_symmetric (self : Search) (s : state) :
  (forall i, i < state_length self - 1 ->
     exists t, nth_error (successors self s) i = Some t
               /\ nth_error (successors self t) i = Some s)
  /\ (forall t, In t (successors self s) -> In s (successors self t)).
Proof.
  split.
  - intros i Hi. exists (swap_adjacent i s).
    split; [apply successors_nth_error, Hi |].
    rewrite successors_nth_error by exact Hi.
    rewrite swap_adjacent_involutive. reflexivity.
  - intros t Ht. unfold successors in *. apply in_map_iff in Ht as (i & <- & Hi).
    apply in_map_iff. exists i. split; [apply swap_adjacent_involutive | exact Hi].
Qed.

(** X7. Whatever the length of the state given, every successor holds the
    same values as the state, each as many times, and has its length; an
    index whose pair is not inside the state gives the state itself, the
    slices being empty there. *)
Theorem successors_keep_values (self : Search) (s : state) :
  (forall t, In t (successors self s) -> Permutation t s /\ length t = length s)
  /\ (forall i, i < state_length self - 1 -> length s <= i + 1 ->
        nth_error (successors self s) i = Some s).
Proof.
  split.
  - intros t Ht. split; [eapply successors_perm | eapply successors_length]; eassumption.
  - intros i Hi Hlen. rewrite successors_nth_error by exact Hi.
    rewrite swap_adjacent_out_of_range by exact Hlen. reflexivity.
Qed.

(** ** The results of the five strategies *)

(** X8. The path of a successful result of the five strategies visits no
    state twice, and has no more entries than the visited log. *)
Theorem path_simple (st : strategy) (init : state) (fuel : nat)
  (V : list ident) (p : path) :
  run st (new_search init) fuel = Some (Found V p) ->
  NoDup p /\ length p <= length V.
Proof.
  intros Hrun. apply run_sound in Hrun as (_ & _ & Hnd & Hincl).
  split; [assumption | apply NoDup_incl_length; assumption].
Qed.

Lemma path_simple_witness :
  NoDup [[3; 1; 2]; [1; 3; 2]; [1; 2; 3]]%Z
  /\ length [[3; 1; 2]; [1; 3; 2]; [1; 2; 3]]%Z
     <= length [[3; 1; 2]; [1; 3; 2]; [3; 2; 1]; [1; 2; 3]]%Z.
Proof.
  apply (path_simple BreadthFirst [3; 1; 2]%Z 20).
  vm_compute; reflexivity.
Defined.

Section EngineLog.
Variable self : Search.
Context {E : Type}.
Variable entry_state : E -> state.
Variable entry_path : E -> path.
Variable make_entry : state -> path -> E.
Variable pop : list E -> option (E * list E).
Variable push : list E -> E -> list E.
Hypothesis pop_empty : forall F, pop F = None -> F = [].
Hypothesis pop_perm : forall F e F', pop F = Some (e, F') -> Permutation F (e :: F').
Hypothesis push_perm : forall F e, Permutation (push F e) (e :: F).
Hypothesis make_state : forall s p, entry_state (make_entry s p) = s.
Hypothesis make_path : forall s p, entry_path (make_entry s p) = p.

Local Abbreviation loop :=
  (search_loop self entry_state entry_path make_entry pop push).

(** The log only grows, and the goal is the last state logged. *)
Lemma loop_log_suffix (fuel : nat) :
  forall F V V' p,
    loop fuel F V = Some (Found V' p) ->
    exists W, V' = V ++ W ++ [tuple (goal_state self)].
Proof.
  induction fuel as [|fuel IH]; intros F V V' p Hrun; simpl in Hrun.
  - discriminate.
  - destruct (pop F) as [[e F']|]; [| discriminate].
    destruct (visited_dec (tuple (entry_state e)) V); [eapply IH; eassumption |].
    destruct (state_eq_dec (entry_state e) (goal_state self)) as [Hg|Hg].
    + injection Hrun as <- _. exists []. rewrite Hg. reflexivity.
    + apply IH in Hrun as (W & ->).
      exists (tuple (entry_state e) :: W). rewrite <- app_assoc. reflexivity.
Qed.

Lemma loop_log_perm (fuel : nat) :
  forall F V V' p,
    frontier_inv self entry_state entry_path F V ->
    loop fuel F V = Some (Found V' p) ->
    forall v, In v V' -> Permutation v (initial_state self).
Proof.
  induction fuel as [|fuel IH]; intros F V V' p HI Hrun; simpl in Hrun.
  - discriminate.
  - destruct (pop F) as [[e F']|] eqn:Hpop; [| discriminate].
    destruct (visited_dec (tuple (entry_state e)) V) as [Hin|Hnew].
    + eapply IH; [| eassumption].
      eapply (inv_skip self entry_state entry_path pop); eassumption.
    + pose proof (inv_expand self entry_state entry_path make_entry pop push
                    pop_perm push_perm make_state make_path _ _ _ _ HI Hpop Hnew)
        as HI'.
      destruct (state_eq_dec (entry_state e) (goal_state self)) as [Hg|Hg].
      * injection Hrun as <- _. apply HI'.
      * eapply IH; eassumption.
Qed.

Lemma loop_log_head (fuel : nat) (e0 : E) (V' : list ident) (p : path) :
  entry_state e0 = initial_state self ->
  loop fuel [e0] [] = Some (Found V' p) ->
  hd_error V' = Some (tuple (initial_state self)).
Proof.
  intros Hs Hrun. destruct fuel as [|fuel]; simpl in Hrun; [discriminate |].
  destruct (pop [e0]) as [[e F']|] eqn:Hpop; [| discriminate].
  pose proof (pop_perm _ _ _ Hpop) as Hp.
  apply Permutation_length_1_inv in Hp. injection Hp as -> ->.
  destruct (visited_dec (tuple (entry_state e0)) []) as [[]|_].
  rewrite Hs in Hrun.
  destruct (state_eq_dec (initial_state self) (goal_state self)).
  - injection Hrun as <- _. reflexivity.
  - apply loop_log_suffix in Hrun as (W & ->). reflexivity.
Qed.

Lemma traced_parent (V : list ident) (p : path) (s : state) :
  traced self V p s ->
  s = initial_state self
  \/ exists u, In (tuple u) V /\ In s (successors self u).
Proof.
  intros Ht; destruct Ht as [|p u t _ _ Hu Ht]; [left; reflexivity |].
  right. exists u. split; assumption.
Qed.

(** Every logged state but the initial one is a successor of a state logged
    before it. *)
Lemma loop_log_tree (fuel : nat) :
  forall F V V' p,
    frontier_inv self entry_state entry_path F V ->
    (forall k v, nth_error V k = Some v ->
       v = tuple (initial_state self)
       \/ exists j u, j < k /\ nth_error V j = Some u /\ In v (successors self u)) ->
    loop fuel F V = Some (Found V' p) ->
    forall k v, nth_error V' k = Some v ->
      v = tuple (initial_state self)
      \/ exists j u, j < k /\ nth_error V' j = Some u /\ In v (successors self u).
Proof.
  induction fuel as [|fuel IH]; intros F V V' p HI HT Hrun; simpl in Hrun.
  - discriminate.
  - destruct (pop F) as [[e F']|] eqn:Hpop; [| discriminate].
    destruct (visited_dec (tuple (entry_state e)) V) as [Hin|Hnew].
    + eapply IH; [| exact HT | eassumption].
      eapply (inv_skip self entry_state entry_path pop); eassumption.
    + assert (HT' : forall k v, nth_error (V ++ [tuple (entry_state e)]) k = Some v ->
                v = tuple (initial_state self)
                \/ exists j u, j < k
                     /\ nth_error (V ++ [tuple (entry_state e)]) j = Some u
                     /\ In v (successors self u)).
      { intros k v Hk. destruct (Nat.lt_ge_cases k (length V)) as [Hlt|Hge].
        - rewrite nth_error_app1 in Hk by exact Hlt.
          destruct (HT k v Hk) as [H|(j & u & Hj & Hu & Hs)]; [left; exact H |].
          right. exists j, u. split; [exact Hj |]. split; [| exact Hs].
          rewrite nth_error_app1 by lia. exact Hu.
        - rewrite nth_error_app2 in Hk by exact Hge.
          destruct (k - length V) as [|d] eqn:Hd; [| destruct d; discriminate].
          injection Hk as <-.
          pose proof (inv_popped self entry_state entry_path pop pop_perm
                        _ _ _ _ HI Hpop) as Htr.
          destruct (traced_parent _ _ _ Htr) as [H|(u & Hu & Hs)]; [left; exact H |].
          right. apply In_nth_error in Hu as (j & Hj).
          exists j, u. split.
          + assert (j < length V) by (apply nth_error_Some; congruence). lia.
          + split; [| exact Hs]. rewrite nth_error_app1; [exact Hj |].
            apply nth_error_Some; congruence. }
      pose proof (inv_expand self entry_state entry_path make_entry pop push
                    pop_perm push_perm make_state make_path _ _ _ _ HI Hpop Hnew)
        as HI'.
      destruct (state_eq_dec (entry_state e) (goal_state self)) as [Hg|Hg].
      * injection Hrun as <- _. exact HT'.
      * eapply IH; eassumption.
Qed.
End EngineLog.

(** X9. The visited log of a successful result of the five strategies starts
    with the initial state, ends with the goal state, which occurs nowhere
    else in it, and holds only rearrangements of the initial sequence. *)
Theorem visited_log_shape (st : strategy) (init : state) (fuel : nat)
  (V : list ident) (p : path) :
  run st (new_search init) fuel = Some (Found V p) ->
  hd_error V = Some (tuple init)
  /\ (exists W, V = W ++ [tuple (sorted init)] /\ ~ In (tuple (sorted init)) W)
  /\ (forall v, In v V -> Permutation v init).
Proof.
  intros Hrun. pose proof (run_sound _ _ _ _ _ Hrun) as (Hnd & _).
  rewrite run_ops_of in Hrun. unfold run_ops in Hrun.
  destruct (ops_lawful st (new_search init)) as [L1 L2 L3 L4 L5 L6 L7].
  split; [| split].
  - apply (loop_log_head (new_search init) _ _ _ _ _ L2 fuel _ V p L6 Hrun).
  - destruct (loop_log_suffix (new_search init) _ _ _ _ _ fuel _ _ _ _ Hrun)
      as (W & HW).
    simpl in HW. exists W. split; [exact HW |].
    rewrite HW in Hnd. intros Hin.
    apply NoDup_remove_2 in Hnd. apply Hnd. rewrite app_nil_r. exact Hin.
  - apply (loop_log_perm (new_search init) _ _ _ _ _ L2 L3 L4 L5 fuel _ _ _ _
             (inv_start (new_search init) _ _ _ L6 L7) Hrun).
Qed.

Lemma visited_log_shape_witness :
  hd_error [[3; 1; 2]; [1; 3; 2]; [3; 2; 1]; [1; 2; 3]]%Z = Some [3; 1; 2]%Z
  /\ (exists W, [[3; 1; 2]; [1; 3; 2]; [3; 2; 1]; [1; 2; 3]]%Z
                = W ++ [tuple (sorted [3; 1; 2]%Z)]
                /\ ~ In (tuple (sorted [3; 1; 2]%Z)) W)
  /\ (forall v, In v [[3; 1; 2]; [1; 3; 2]; [3; 2; 1]; [1; 2; 3]]%Z ->
                Permutation v [3; 1; 2]%Z).
Proof.
  apply (visited_log_shape UniformCost [3; 1; 2]%Z 20 _
           [[3; 1; 2]; [1; 3; 2]; [1; 2; 3]]%Z).
  vm_compute; reflexivity.
Defined.

(** ** The heuristic and cost functions *)

Lemma count_if_bound (f : nat -> bool) (l : list nat) : count_if f l <= length l.
Proof. apply filter_length_le. Qed.

Lemma count_if_zero (f : nat -> bool) (l : list nat) :
  count_if f l = 0 <-> forall i, In i l -> f i = false.
Proof.
  unfold count_if. induction l as [|x l IH]; simpl.
  - split; [intros _ i [] | reflexivity].
  - destruct (f x) eqn:Hx; simpl.
    + split; [discriminate |]. intros H. rewrite (H x) in Hx by (left; reflexivity).
      discriminate.
    + rewrite IH. split.
      * intros H i [<-|Hi]; [assumption | apply H, Hi].
      * intros H i Hi. apply H. right; assumption.
Qed.

Lemma sum_abs_acc (l : list Z) (a : Z) :
  fold_left Z.add l a = (a + fold_left Z.add l 0%Z)%Z.
Proof.
  revert a; induction l as [|x l IH]; intros a; simpl; [lia |].
  rewrite (IH (a + x)%Z), (IH x). lia.
Qed.

Lemma sum_nonneg (l : list Z) :
  Forall (fun x => (0 <= x)%Z) l ->
  (0 <= fold_left Z.add l 0%Z)%Z
  /\ (fold_left Z.add l 0%Z = 0%Z <-> Forall (fun x => x = 0%Z) l).
Proof.
  induction 1 as [|x l Hx Hl [IH1 IH2]]; simpl.
  - split; [lia | split; constructor].
  - rewrite sum_abs_acc. split; [lia |]. split.
    + intros H. constructor; [lia | apply IH2; lia].
    + intros H. inversion H as [|? ? H0 Hr]; subst. apply IH2 in Hr. lia.
Qed.

(** Two states of the same length are equal when they agree at each index. *)
Lemma items_ext (a b : state) :
  length a = length b ->
  (forall i, i < length a -> item a i = item b i) <-> a = b.
Proof.
  intros Hlen. split.
  - intros H. apply (nth_ext a b 0%Z 0%Z Hlen). exact H.
  - intros ->. reflexivity.
Qed.

Lemma mismatches_zero (a b : state) (n : nat) :
  length a = n -> length b = n ->
  count_if (fun i => negb (item a i =? item b i)%Z) (seq 0 n) = 0 <-> a = b.
Proof.
  intros Ha Hb. rewrite count_if_zero, <- (items_ext a b) by congruence.
  split; intros H i Hi.
  - specialize (H i). rewrite in_seq in H.
    apply Z.eqb_eq. apply negb_false_iff. apply H. lia.
  - rewrite in_seq in Hi. rewrite H by lia. rewrite Z.eqb_refl. reflexivity.
Qed.

(** X10. The cost of a state of the stored length counts positions, so it
    lies between 0 and that length, and it is 0 exactly for the initial state:
    the 0 put in the first heap entry of uniform-cost and A-star search is the
    cost of the initial state. *)
Theorem misplaced_elements_cost_zero (init s : state) :
  length s = length init ->
  (0 <= misplaced_elements_cost (new_search init) s <= Z.of_nat (length init))%Z
  /\ (misplaced_elements_cost (new_search init) s = 0%Z <-> s = init).
Proof.
  intros Hlen. unfold misplaced_elements_cost. simpl. split.
  - pose proof (count_if_bound
                  (fun i => negb (item init i =? item s i)%Z) (seq 0 (length init))) as H.
    rewrite length_seq in H. lia.
  - pose proof (mismatches_zero init s (length init) eq_refl Hlen) as Hz.
    split; intros H.
    + symmetry. apply Hz. lia.
    + symmetry in H. apply Hz in H. lia.
Qed.

Lemma misplaced_elements_cost_zero_witness :
  length [1; 3; 2]%Z = length [3; 1; 2]%Z
  /\ (0 <= misplaced_elements_cost (new_search [3; 1; 2]%Z) [1; 3; 2]%Z
       <= Z.of_nat (length [3; 1; 2]%Z))%Z
  /\ (misplaced_elements_cost (new_search [3; 1; 2]%Z) [1; 3; 2]%Z = 0%Z
       <-> [1; 3; 2]%Z = [3; 1; 2]%Z).
Proof.
  split; [reflexivity |].
  apply (misplaced_elements_cost_zero [3; 1; 2]%Z [1; 3; 2]%Z). reflexivity.
Defined.

(** X11. On sequences of integers, where the sum of the source is the exact
    sum taken here, the absolute-difference heuristic of a state of the
    stored length is never negative, and it is 0 exactly for the goal state.
    Nothing is said of floating-point values, whose sum is rounded and is not
    a number when an infinite value is subtracted from itself. *)
Theorem absolute_difference_zero (init s : state) :
  length s = length init ->
  (0 <= absolute_difference_heuristic (new_search init) s)%Z
  /\ (absolute_difference_heuristic (new_search init) s = 0%Z <-> s = sorted init).
Proof.
  intros Hlen. unfold absolute_difference_heuristic. simpl.
  assert (Hlg : length (sorted init) = length init).
  { apply Permutation_length, sorted_perm. }
  destruct (sum_nonneg
              (map (fun i => Z.abs (item s i - item (sorted init) i))
                 (seq 0 (length init)))) as [H1 H2].
  { apply Forall_forall. intros x Hx. apply in_map_iff in Hx as (i & <- & _). lia. }
  split; [exact H1 |]. rewrite H2, Forall_forall.
  rewrite <- (items_ext s (sorted init)) by congruence.
  split.
  - intros H i Hi. specialize (H (Z.abs (item s i - item (sorted init) i))).
    assert (Hin : In (Z.abs (item s i - item (sorted init) i))
                    (map (fun i => Z.abs (item s i - item (sorted init) i))
                       (seq 0 (length init)))).
    { apply in_map_iff. exists i. split; [reflexivity |]. apply in_seq. lia. }
    specialize (H Hin). lia.
  - intros H x Hx. apply in_map_iff in Hx as (i & <- & Hi).
    apply in_seq in Hi. rewrite H by lia. lia.
Qed.

Lemma absolute_difference_zero_witness :
  length [1; 3; 2]%Z = length [3; 1; 2]%Z
  /\ (0 <= absolute_difference_heuristic (new_search [3; 1; 2]%Z) [1; 3; 2]%Z)%Z
  /\ (absolute_difference_heuristic (new_search [3; 1; 2]%Z) [1; 3; 2]%Z = 0%Z
       <-> [1; 3; 2]%Z = sorted [3; 1; 2]%Z).
Proof.
  split; [reflexivity |].
  apply (absolute_difference_zero [3; 1; 2]%Z [1; 3; 2]%Z). reflexivity.
Defined.

(** X12. The misplaced-tiles heuristic of a state of the stored length lies
    between 0 and that length, and it is 0 exactly for the goal state. *)
Theorem misplaced_tiles_zero (init s : state) :
  length s = length init ->
  (0 <= misplaced_tiles_heuristic (new_search init) s <= Z.of_nat (length init))%Z
  /\ (misplaced_tiles_heuristic (new_search init) s = 0%Z <-> s = sorted init).
Proof.
  intros Hlen. unfold misplaced_tiles_heuristic. simpl.
  assert (Hlg : length (sorted init) = length init).
  { apply Permutation_length, sorted_perm. }
  split.
  - pose proof (count_if_bound
                  (fun i => negb (item s i =? item (sorted init) i)%Z)
                  (seq 0 (length init))) as H.
    rewrite length_seq in H. lia.
  - pose proof (mismatches_zero s (sorted init) (length init) Hlen Hlg) as Hz.
    split; intros H.
    + apply Hz. lia.
    + apply Hz in H. lia.
Qed.

Lemma misplaced_tiles_zero_witness :
  length [1; 3; 2]%Z = length [3; 1; 2]%Z
  /\ (0 <= misplaced_tiles_heuristic (new_search [3; 1; 2]%Z) [1; 3; 2]%Z
       <= Z.of_nat (length [3; 1; 2]%Z))%Z
  /\ (misplaced_tiles_heuristic (new_search [3; 1; 2]%Z) [1; 3; 2]%Z = 0%Z
       <-> [1; 3; 2]%Z = sorted [3; 1; 2]%Z).
Proof.
  split; [reflexivity |].
  apply (misplaced_tiles_zero [3; 1; 2]%Z [1; 3; 2]%Z). reflexivity.
Defined.

(** X13. On an initial sequence already in ascending order each of the five
    strategies returns in its first pass, with the log and the path made of
    the initial state alone. *)
Theorem sorted_input_found_at_once (init : state) :
  Sorted Z.le init ->
  forall st fuel,
    run st (new_search init) (S fuel) = Some (Found [tuple init] [tuple init]).
Proof.
  intros Hs st fuel. pose proof (sorted_fixpoint init Hs) as Hgoal.
  rewrite run_ops_of. unfold run_ops.
  destruct (ops_lawful st (new_search init)) as [_ L2 _ _ _ L6 L7].
  simpl search_loop.
  destruct (f_pop (ops_of st (new_search init)) [f_first (ops_of st (new_search init))])
    as [[e F']|] eqn:Hpop.
  - pose proof (L2 _ _ _ Hpop) as Hp.
    apply Permutation_length_1_inv in Hp. injection Hp as -> ->.
    rewrite L6, L7. simpl initial_state. simpl goal_state.
    destruct (visited_dec (tuple init) []) as [[]|_].
    destruct (state_eq_dec init (sorted init)) as [_|Hne]; [reflexivity |].
    exfalso. apply Hne. symmetry. exact Hgoal.
  - exfalso. destruct st; discriminate.
Qed.

Lemma sorted_input_found_at_once_witness :
  Sorted Z.le [1; 2; 2; 5]%Z
  /\ forall st fuel,
       run st (new_search [1; 2; 2; 5]%Z) (S fuel)
       = Some (Found [[1; 2; 2; 5]%Z] [[1; 2; 2; 5]%Z]).
Proof.
  assert (Hs : Sorted Z.le [1; 2; 2; 5]%Z).
  { repeat constructor; discriminate. }
  split; [exact Hs | exact (sorted_input_found_at_once _ Hs)].
Defined.

Lemma visited_log_len_inversions (st : strategy) (init : state) (fuel : nat)
  (V : list ident) (p : path) :
  run st (new_search init) fuel = Some (Found V p) ->
  S (inversion_heuristic init) <= length V.
Proof.
  intros Hrun. pose proof (run_sound _ _ _ _ _ Hrun) as (_ & Hv & Hnd & Hincl).
  pose proof (NoDup_incl_length Hnd Hincl) as Hle.
  pose proof (valid_path_inversions (new_search init) p _ eq_refl Hv) as Hge.
  change (goal_state (new_search init)) with (sorted init) in Hge.
  rewrite (sorted_no_inversion _ (sorted_Sorted init)) in Hge.
  simpl in Hge. lia.
Qed.

(** X14. The visited log of a successful result of the five strategies has
    more entries than the initial sequence has inversions. *)
Theorem visited_count_lower_bound (st : strategy) (init : state) (fuel : nat)
  (V : list ident) (p : path) :
  run st (new_search init) fuel = Some (Found V p) ->
  inversion_heuristic init < length V.
Proof. intros Hrun. apply (visited_log_len_inversions st init fuel V p Hrun). Qed.

Lemma visited_count_lower_bound_witness :
  inversion_heuristic [3; 1; 2]%Z
  < length [[3; 1; 2]; [1; 3; 2]; [1; 2; 3]]%Z.
Proof.
  apply (visited_count_lower_bound AStar [3; 1; 2]%Z 20 _
           [[3; 1; 2]; [1; 3; 2]; [1; 2; 3]]%Z).
  vm_compute; reflexivity.
Defined.

(** ** The reporting helper *)

Lemma index_none (x : ident) (l : list ident) : index x l = None <-> ~ In x l.
Proof.
  induction l as [|y r IH]; simpl.
  - split; [intros _ [] | reflexivity].
  - destruct (state_eq_dec y x) as [->|Hne].
    + split; [discriminate | intros H; exfalso; apply H; left; reflexivity].
    + destruct (index x r) as [i|]; simpl.
      * split; [discriminate |]. intros H. exfalso.
        assert (Hn : ~ In x r) by (intros Hin; apply H; right; assumption).
        apply IH in Hn. discriminate.
      * split; [| reflexivity]. intros _ [Heq|Hin]; [contradiction |].
        revert Hin. apply IH. reflexivity.
Qed.

Lemma index_first (x : ident) (l : list ident) (i : nat) :
  index x l = Some i ->
  nth_error l i = Some x /\ forall j, j < i -> nth_error l j <> Some x.
Proof.
  revert i; induction l as [|y r IH]; intros i; simpl; [discriminate |].
  destruct (state_eq_dec y x) as [->|Hne].
  - intros H; injection H as <-. split; [reflexivity | intros j Hj; lia].
  - destruct (index x r) as [k|]; simpl; [| discriminate].
    intros H; injection H as <-. destruct (IH k eq_refl) as [H1 H2].
    split; [exact H1 |]. intros [|j] Hj; simpl.
    + congruence.
    + apply H2. lia.
Qed.

(** X15. [print_final_path] raises exactly when some state of the path is
    not in the log given; otherwise it writes one line per entry of the
    path, in order, with the index of the first occurrence of the entry in
    the log. *)
Theorem print_final_path_lines (V : list ident) (p : path) :
  (print_final_path V p = None <-> exists s, In s p /\ ~ In s V)
  /\ (forall lines, print_final_path V p = Some lines ->
        map snd lines = p
        /\ forall i s, In (i, s) lines ->
             nth_error V i = Some s
             /\ forall j, j < i -> nth_error V j <> Some s).
Proof.
  induction p as [|s r [IH1 IH2]]; simpl.
  - split.
    + split; [discriminate | intros (s & [] & _)].
    + intros lines H; injection H as <-. split; [reflexivity | intros i s []].
  - destruct (index s V) as [i|] eqn:Hidx.
    + destruct (print_final_path V r) as [lines'|]; simpl.
      * split.
        -- split; [discriminate |]. intros (t & [<-|Ht] & Hn).
           ++ apply index_none in Hn. congruence.
           ++ exfalso. destruct IH1 as [_ IH1].
              discriminate IH1. exists t; split; assumption.
        -- intros lines H; injection H as <-.
           destruct (IH2 lines' eq_refl) as [Hmap Hall]. split.
           ++ simpl. rewrite Hmap. reflexivity.
           ++ intros j t [Heq|Hin]; [| apply Hall, Hin].
              injection Heq as <- <-. apply index_first, Hidx.
      * split; [| discriminate].
        split; [| reflexivity]. intros _.
        destruct IH1 as [IH1 _]. destruct (IH1 eq_refl) as (t & Ht & Hn).
        exists t. split; [right; assumption | assumption].
    + split; [| discriminate].
      split; [| reflexivity]. intros _. exists s.
      split; [left; reflexivity | apply index_none, Hidx].
Qed.

(** X16. A sequence of n values has at most n(n-1)/2 inversions. *)
Theorem inversion_heuristic_bound (s : state) :
  2 * inversion_heuristic s <= length s * (length s - 1).
Proof.
  induction s as [|x r IH]; [reflexivity |].
  rewrite inversion_cons_count.
  assert (Hc : count_below x r <= length r) by apply filter_length_le.
  simpl length. nia.
Qed.

(** ** The experiment driver *)

(** X17. For hill climbing the value that [run_experiment] adds to its total
    in an iteration is the length of the state returned, not the count of
    states examined: over sequences of length L the total is L times the
    number of iterations, whatever the sequences drawn. *)
Theorem experiment_hill_climbing_total (L : nat) (draws : list state) (k : nat) :
  (forall d, In d draws -> length d = L) ->
  total_nodes_explored HillClimbingSearch draws (S (L * L) + k) 0
  = Some (Some (length draws * L)).
Proof.
  intros Hlen.
  assert (Hgen : forall total,
             total_nodes_explored HillClimbingSearch draws (S (L * L) + k) total
             = Some (Some (total + length draws * L))).
  { induction draws as [|d rest IH]; intros total.
    - simpl. f_equal. f_equal. lia.
    - assert (HL : length d = L) by (apply Hlen; left; reflexivity).
      pose proof (inversion_heuristic_bound d) as Hb. rewrite HL in Hb.
      assert (Hfuel : S (L * L) + k
                      = S (inversion_heuristic d) + (L * L - inversion_heuristic d + k)) by nia.
      simpl total_nodes_explored. unfold iteration_nodes_explored.
      rewrite Hfuel at 1. rewrite hill_climbing_sorts.
      rewrite (Permutation_length (sorted_perm d)), HL.
      rewrite IH by (intros d' Hd'; apply Hlen; right; assumption).
      f_equal. f_equal. simpl length. lia. }
  apply (Hgen 0).
Qed.

Lemma experiment_hill_climbing_total_witness :
  (forall d, In d [[3; 1; 2]; [2; 1; 3]]%Z -> length d = 3)
  /\ total_nodes_explored HillClimbingSearch [[3; 1; 2]; [2; 1; 3]]%Z
       (S (3 * 3) + 0) 0 = Some (Some (2 * 3)).
Proof.
  assert (Hlen : forall d, In d [[3; 1; 2]; [2; 1; 3]]%Z -> length d = 3).
  { intros d [<-|[<-|[]]]; reflexivity. }
  split; [exact Hlen |].
  exact (experiment_hill_climbing_total 3 [[3; 1; 2]; [2; 1; 3]]%Z 0 Hlen).
Defined.

(** X18. For each of the five frontier strategies [run_experiment] meets no
    exception when it unpacks the result of a search, and the total it
    accumulates counts, for every sequence drawn, more states than the
    sequence has inversions. *)
Theorem experiment_frontier_total (st : strategy) (draws : list state) :
  exists fuel, forall k,
    exists n,
      total_nodes_explored (FrontierSearch st) draws (fuel + k) 0 = Some (Some n)
      /\ list_sum (map (fun d => S (inversion_heuristic d)) draws) <= n.
Proof.
  assert (Hgen : exists fuel, forall k total,
             exists n,
               total_nodes_explored (FrontierSearch st) draws (fuel + k) total
               = Some (Some (total + n))
               /\ list_sum (map (fun d => S (inversion_heuristic d)) draws) <= n).
  { induction draws as [|d rest (fuel_r & IH)].
    - exists 0. intros k total. exists 0. split; [simpl; f_equal; f_equal; lia | simpl; lia].
    - destruct (run_found st d) as (fuel_d & V & p & Hrun).
      exists (fuel_d + fuel_r). intros k total.
      pose proof (run_fuel_mono st (new_search d) fuel_d (fuel_r + k) _ Hrun) as Hrun'.
      replace (fuel_d + (fuel_r + k)) with (fuel_d + fuel_r + k) in Hrun' by lia.
      pose proof (visited_log_len_inversions st d _ V p Hrun') as Hlow.
      destruct (IH (fuel_d + k) (total + length V)) as (n & Hn & Hsum).
      replace (fuel_r + (fuel_d + k)) with (fuel_d + fuel_r + k) in Hn by lia.
      exists (length V + n). split.
      + simpl total_nodes_explored. unfold iteration_nodes_explored.
        rewrite Hrun'. rewrite Hn. f_equal. f_equal. lia.
      + simpl. lia. }
  destruct Hgen as (fuel & H). exists fuel. intros k.
  destruct (H k 0) as (n & Hn & Hsum). exists n. split; assumption.
Qed.

(** ** The order of the visited log *)

Lemma bfs_loop_layers (self : Search) (fuel : nat) :
  forall d Q1 Q2 V V' p,
    layered self d Q1 Q2 V ->
    search_loop self (fst : entry2 -> state) snd pair queue_get queue_put
      fuel (Q1 ++ Q2) V = Some (Found V' p) ->
    forall q t, valid_path self q t -> length q < length p -> In (tuple t) V'.
Proof.
  induction fuel as [|fuel IH]; intros d Q1 Q2 V V' p HL Hrun q t Hq Hlen;
    simpl in Hrun.
  - discriminate.
  - destruct (Q1 ++ Q2) as [|e Q] eqn:HQ; simpl in Hrun; [discriminate |].
    destruct (layered_head self _ _ _ _ _ _ HL HQ) as (d' & Q1' & Q2' & HL' & ->).
    destruct (visited_dec (tuple (fst e)) V) as [Hin|Hnew].
    + eapply IH; [eapply layered_skip; eassumption | eassumption | eassumption | assumption].
    + destruct (state_eq_dec (fst e) (goal_state self)) as [Hg|Hg].
      * injection Hrun as <- <-.
        rewrite (lay_cur _ _ _ _ _ HL' e) in Hlen by (left; reflexivity).
        apply in_or_app. left. apply (lay_below _ _ _ _ _ HL' q); assumption.
      * rewrite bfs_expand, <- app_assoc in Hrun.
        eapply IH; [apply layered_expand; eassumption | eassumption | eassumption | assumption].
Qed.

(** X19. Breadth-first search logs whole layers: when it returns, every
    state that some sequence of adjacent swaps reaches from the initial state
    with fewer entries than the returned path is in the visited log. *)
Theorem breadth_first_layers_logged (init : state) (fuel : nat)
  (V : list ident) (p : path) :
  breadth_first_search (new_search init) fuel = Some (Found V p) ->
  forall q t,
    valid_path (new_search init) q t -> length q < length p -> In (tuple t) V.
Proof.
  intros Hbfs. unfold breadth_first_search in Hbfs.
  apply (bfs_loop_layers (new_search init) fuel 1 [(init, [tuple init])] [] [] V p
           (layered_start (new_search init)) Hbfs).
Qed.

Lemma breadth_first_layers_logged_witness :
  breadth_first_search (new_search [3; 1; 2]%Z) 20
  = Some (Found [[3; 1; 2]; [1; 3; 2]; [3; 2; 1]; [1; 2; 3]]%Z
                [[3; 1; 2]; [1; 3; 2]; [1; 2; 3]]%Z)
  /\ forall q t,
       valid_path (new_search [3; 1; 2]%Z) q t ->
       length q < length [[3; 1; 2]; [1; 3; 2]; [1; 2; 3]]%Z ->
       In (tuple t) [[3; 1; 2]; [1; 3; 2]; [3; 2; 1]; [1; 2; 3]]%Z.
Proof.
  assert (Hrun : breadth_first_search (new_search [3; 1; 2]%Z) 20
                 = Some (Found [[3; 1; 2]; [1; 3; 2]; [3; 2; 1]; [1; 2; 3]]%Z
                               [[3; 1; 2]; [1; 3; 2]; [1; 2; 3]]%Z)).
  { vm_compute; reflexivity. }
  split; [exact Hrun |].
  exact (breadth_first_layers_logged [3; 1; 2]%Z 20 _ _ Hrun).
Defined.

(** X20. In the visited log of a successful result of the five strategies
    every state but the initial one is a successor of a state logged before
    it. *)
Theorem visited_log_tree (st : strategy) (init : state) (fuel : nat)
  (V : list ident) (p : path) :
  run st (new_search init) fuel = Some (Found V p) ->
  forall k v, nth_error V k = Some v ->
    v = tuple init
    \/ exists j u, j < k /\ nth_error V j = Some u
                   /\ In v (successors (new_search init) u).
Proof.
  intros Hrun. rewrite run_ops_of in Hrun. unfold run_ops in Hrun.
  destruct (ops_lawful st (new_search init)) as [L1 L2 L3 L4 L5 L6 L7].
  eapply (loop_log_tree (new_search init) _ _ _ _ _ L2 L3 L4 L5 fuel
            [f_first (ops_of st (new_search init))] [] V p).
  - apply inv_start; assumption.
  - intros k v Hk. destruct k; discriminate.
  - exact Hrun.
Qed.

Lemma visited_log_tree_witness :
  run DepthFirst (new_search [3; 1; 2]%Z) 20
  = Some (Found [[3; 1; 2]; [3; 2; 1]; [2; 3; 1]; [2; 1; 3]; [1; 2; 3]]%Z
                [[3; 1; 2]; [3; 2; 1]; [2; 3; 1]; [2; 1; 3]; [1; 2; 3]]%Z)
  /\ forall k v,
       nth_error [[3; 1; 2]; [3; 2; 1]; [2; 3; 1]; [2; 1; 3]; [1; 2; 3]]%Z k
       = Some v ->
       v = tuple [3; 1; 2]%Z
       \/ exists j u,
            j < k
            /\ nth_error [[3; 1; 2]; [3; 2; 1]; [2; 3; 1]; [2; 1; 3]; [1; 2; 3]]%Z j
               = Some u
            /\ In v (successors (new_search [3; 1; 2]%Z) u).
Proof.
  assert (Hrun : run DepthFirst (new_search [3; 1; 2]%Z) 20
                 = Some (Found [[3; 1; 2]; [3; 2; 1]; [2; 3; 1]; [2; 1; 3]; [1; 2; 3]]%Z
                               [[3; 1; 2]; [3; 2; 1]; [2; 3; 1]; [2; 1; 3]; [1; 2; 3]]%Z)).
  { vm_compute; reflexivity. }
  split; [exact Hrun |].
  exact (visited_log_tree DepthFirst [3; 1; 2]%Z 20 _ _ Hrun).
Defined.
